(** * Advent of Code 2020, day 16: ticket validation and field resolution

    A shallow embedding of [main.go] and the properties of its two
    algorithms: the validator [isValidTicket] and the field resolver
    [getOrdering], together with the driver [main] that feeds them. *)

From Stdlib Require Import ZArith String Ascii.
From stdpp Require Import base list strings pretty.

Local Open Scope Z_scope.

(** * The program *)

(** ** Data model *)

(** [ValidRange]: an inclusive interval of Go [int]s. *)
Record ValidRange : Type := mkValidRange { Min : Z; Max : Z }.

(** [Ticket]: the values of one row. *)
Record Ticket : Type := mkTicket { Values : list Z }.

(** [Configuration]: a named field with its alternative ranges. *)
Record Configuration : Type :=
  mkConfiguration { Field : string; Ranges : list ValidRange }.

(** The zero values [Ticket{}] and [Configuration{}]. *)
Definition Ticket_zero : Ticket := mkTicket [].
Definition Configuration_zero : Configuration := mkConfiguration EmptyString [].

(** ** Outcomes of a Go computation

    [Done] is a normal return, [Panic] a run-time panic (index or slice
    bound), [Timeout] the exhaustion of the fuel that bounds the number of
    iterations of an unbounded [for] loop. *)
Inductive result (A : Type) : Type :=
| Done (a : A)
| Panic
| Timeout.
Arguments Done {A} a.
Arguments Panic {A}.
Arguments Timeout {A}.

Definition bind {A B : Type} (r : result A) (k : A → result B) : result B :=
  match r with
  | Done a => k a
  | Panic => Panic
  | Timeout => Timeout
  end.

Notation "'let!' x ':=' r 'in' k" := (bind r (fun x => k))
  (at level 10, x name, r at level 100, k at level 200, only parsing).

(** ** Go [int] arithmetic (64 bits, two's complement, wrapping) *)
Module GoInt.

Definition max_int : Z := 9223372036854775807.
Definition min_int : Z := -9223372036854775808.

Definition in_range (z : Z) : Prop := min_int ≤ z ≤ max_int.

Definition wrap (z : Z) : Z := (z + 2 ^ 63) mod 2 ^ 64 - 2 ^ 63.

Definition add (a b : Z) : Z := wrap (a + b).
Definition mul (a b : Z) : Z := wrap (a * b).

End GoInt.

(** ** The validator *)

(** The test [value >= minMax.Min && value <= minMax.Max]. *)
Definition inRange (value : Z) (r : ValidRange) : bool :=
  (value >=? Min r) && (value <=? Max r).

(** The two inner loops of [isValidTicket]: every range of every
    configuration is visited (there is no [break]) and [foundValid] is set
    on each hit. *)
Definition foundValid_ranges (value : Z) (ranges : list ValidRange)
    (foundValid : bool) : bool :=
  fold_left (fun fv minMax => if inRange value minMax then true else fv)
            ranges foundValid.

Definition foundValid_configs (value : Z) (configs : list Configuration)
    (foundValid : bool) : bool :=
  fold_left (fun fv config => foundValid_ranges value (Ranges config) fv)
            configs foundValid.

(** The outer loop: [invalidValues] grows by [append] at its end. *)
Definition collectInvalid (configs : list Configuration) (values : list Z)
    (invalidValues : list Z) : list Z :=
  fold_left (fun inv value =>
               if negb (foundValid_configs value configs false)
               then inv ++ [value] else inv)
            values invalidValues.

(** [isValidTicket]. The [nil] slice of the valid case is the empty
    sequence. *)
Definition isValidTicket (ticket : Ticket) (configs : list Configuration)
    : bool * list Z :=
  let invalidValues := collectInvalid configs (Values ticket) [] in
  if (0 <? Z.of_nat (length invalidValues))
  then (false, invalidValues)
  else (true, []).

(** A value is covered when some range of some configuration contains it. *)
Definition covered (configs : list Configuration) (v : Z) : Prop :=
  Exists (fun c => Exists (fun r => Min r ≤ v ≤ Max r) (Ranges c)) configs.

#[global] Instance covered_dec configs v : Decision (covered configs v).
Proof. unfold covered. apply _. Defined.

(** The uncovered values of a record, in record order. *)
Definition uncovered (configs : list Configuration) (values : list Z) : list Z :=
  filter (fun v => ¬ covered configs v) values.

(** ** The field resolver *)

(** The innermost loop of [getOrdering]: [isValidRange] becomes [true] at
    the first range that holds the value, and the loop is left there. *)
Fixpoint isValidRange (value : Z) (ranges : list ValidRange) : bool :=
  match ranges with
  | [] => false
  | allowedRange :: rest =>
      if inRange value allowedRange then true else isValidRange value rest
  end.

(** The loop over [values]: [isValidConfig] becomes [false] at the first
    value outside every range, and the loop is left there. *)
Fixpoint isValidConfig (values : list Z) (config : Configuration) : bool :=
  match values with
  | [] => true
  | value :: rest =>
      if negb (isValidRange value (Ranges config)) then false
      else isValidConfig rest config
  end.

(** The values of column [fieldPos], ticket by ticket;
    [ticket.Values[fieldPos]] panics on a ticket that is too short. *)
Fixpoint columnValues (tickets : list Ticket) (fieldPos : nat)
    : result (list Z) :=
  match tickets with
  | [] => Done []
  | ticket :: rest =>
      match Values ticket !! fieldPos with
      | Some v => let! values := columnValues rest fieldPos in Done (v :: values)
      | None => Panic
      end
  end.

(** The variables of the loop over [configs]. [tested] is a ghost counter
    of the configurations whose all-values test was run. *)
Record scan : Type := mkScan {
  validConfigCount : Z;
  validConfig : Configuration;
  validConfigIdx : Z;
  tested : nat
}.

Definition scan_init : scan := mkScan 0 Configuration_zero (-1) 0.

(** [for idx, config := range configs], from index [idx] on, with its
    [break] once [validConfigCount > 1]. *)
Fixpoint scanConfigs (values : list Z) (configs : list Configuration)
    (idx : Z) (s : scan) : scan :=
  match configs with
  | [] => s
  | config :: rest =>
      if isValidConfig values config then
        let s' := mkScan (validConfigCount s + 1) config idx (S (tested s)) in
        if validConfigCount s' >? 1 then s'
        else scanConfigs values rest (idx + 1) s'
      else
        scanConfigs values rest (idx + 1)
          (mkScan (validConfigCount s) (validConfig s) (validConfigIdx s)
                  (S (tested s)))
  end.

(** [append(configs[:idx], configs[idx+1:]...)]; the slice expressions
    panic when [idx] is not an index into [configs]. The shift happens in
    the array that [main]'s own [configs] shares, which [main] does not read
    again. *)
Definition removeAt (idx : Z) (configs : list Configuration)
    : result (list Configuration) :=
  if (0 <=? idx) && (idx + 1 <=? Z.of_nat (length configs))
  then Done (take (Z.to_nat idx) configs ++ drop (Z.to_nat (idx + 1)) configs)
  else Panic.

(** Ghost events of a run: the body of the position loop is entered for
    [fieldPos] with the remaining configurations [remaining]; and
    [orderedFields[fieldPos]] is written with the name of [config], which
    sat at index [idx] of the remaining configurations. *)
Inductive event : Type :=
| Visit (fieldPos : nat) (remaining : list Configuration)
| Assign (fieldPos : nat) (idx : nat) (config : Configuration).

(** The state of [getOrdering]: the local [configs] and [orderedFields],
    and the ghost [trace] of the events so far. *)
Record resolver : Type := mkResolver {
  configs : list Configuration;
  orderedFields : list string;
  trace : list event
}.

(** The body of [for fieldPos := 0; fieldPos < fieldSize; fieldPos++]. *)
Definition scanPosition (tickets : list Ticket) (fieldPos : nat)
    (st : resolver) : result resolver :=
  let! values := columnValues tickets fieldPos in
  let s := scanConfigs values (configs st) 0 scan_init in
  let entered := trace st ++ [Visit fieldPos (configs st)] in
  if validConfigCount s =? 1 then
    let! configs' := removeAt (validConfigIdx s) (configs st) in
    Done (mkResolver configs'
            (<[fieldPos := Field (validConfig s)]> (orderedFields st))
            (entered ++ [Assign fieldPos (Z.to_nat (validConfigIdx s))
                                (validConfig s)]))
  else
    Done (mkResolver (configs st) (orderedFields st) entered).

(** One pass of the position loop over the positions [positions]. *)
Fixpoint passFrom (tickets : list Ticket) (positions : list nat)
    (st : resolver) : result resolver :=
  match positions with
  | [] => Done st
  | fieldPos :: rest =>
      let! st' := scanPosition tickets fieldPos st in passFrom tickets rest st'
  end.

Definition pass (tickets : list Ticket) (fieldSize : nat) (st : resolver)
    : result resolver :=
  passFrom tickets (seq 0 fieldSize) st.

(** [for len(configs) > 0 { ... }]: [fuel] bounds the number of passes. *)
Fixpoint resolveLoop (fuel : nat) (tickets : list Ticket) (fieldSize : nat)
    (st : resolver) : result resolver :=
  match configs st with
  | [] => Done st
  | _ :: _ =>
      match fuel with
      | O => Timeout
      | S fuel' =>
          let! st' := pass tickets fieldSize st in
          resolveLoop fuel' tickets fieldSize st'
      end
  end.

(** The state on entry to the loop: [make([]string, fieldSize)] holds
    [fieldSize] empty strings. *)
Definition resolver_init (fieldSize : nat) (configs : list Configuration)
    : resolver :=
  mkResolver configs (replicate fieldSize EmptyString) [].

(** [tickets[0]]: panics on an empty slice. *)
Definition firstTicket (tickets : list Ticket) : result Ticket :=
  match tickets !! 0%nat with
  | Some ticket => Done ticket
  | None => Panic
  end.

(** [getOrdering], with its final state and ghost trace. *)
Definition getOrdering_run (fuel : nat) (tickets : list Ticket)
    (configs : list Configuration) : result resolver :=
  let! ticket0 := firstTicket tickets in
  let fieldSize := length (Values ticket0) in
  resolveLoop fuel tickets fieldSize (resolver_init fieldSize configs).

(** [getOrdering]. *)
Definition getOrdering (fuel : nat) (tickets : list Ticket)
    (configs : list Configuration) : result (list string) :=
  let! st := getOrdering_run fuel tickets configs in
  Done (orderedFields st).

(** * Vocabulary of the properties *)

(** ** Passing configurations *)

(** The remaining configurations that every value of a column satisfies. *)
Definition passing (values : list Z) (R : list Configuration)
    : list Configuration :=
  filter (fun c => isValidConfig values c = true) R.

Definition scan_tick (k : nat) (s : scan) : scan :=
  mkScan (validConfigCount s) (validConfig s) (validConfigIdx s)
         (tested s + k)%nat.

(** ** Traces *)

(** The positions and configurations of the [Assign] events of a trace, and
    the positions and remaining sets of its [Visit] events. *)
Definition assignments (tr : list event) : list (nat * Configuration) :=
  omap (fun e => match e with
                 | Assign p _ c => Some (p, c)
                 | Visit _ _ => None
                 end) tr.

Definition visits (tr : list event) : list (nat * list Configuration) :=
  omap (fun e => match e with
                 | Visit p R => Some (p, R)
                 | Assign _ _ _ => None
                 end) tr.

Definition assigned (tr : list event) : list nat := (assignments tr).*1.
Definition visited (tr : list event) : list nat := (visits tr).*1.

(** The elimination order of a trace: position and index of each removal. *)
Definition eliminations (tr : list event) : list (nat * nat) :=
  omap (fun e => match e with
                 | Assign p i _ => Some (p, i)
                 | Visit _ _ => None
                 end) tr.

(** ** Runs: sequences of iterations of the position loop *)

(** [steps tickets L st evs st']: from [st], some iterations of the position
    loop, each at a position below [L] and none panicking, lead to [st'] and
    add the events [evs] to the trace. *)
Inductive steps (tickets : list Ticket) (L : nat)
    : resolver → list event → resolver → Prop :=
| steps_nil st : steps tickets L st [] st
| steps_cons st p st1 evs1 evs2 st2 :
    (p < L)%nat →
    scanPosition tickets p st = Done st1 →
    trace st1 = trace st ++ evs1 →
    steps tickets L st1 evs2 st2 →
    steps tickets L st (evs1 ++ evs2) st2.

(** What holds of every state of a run on [tickets] that starts with the
    configurations [R0] and [L] empty names. *)
Record Inv (tickets : list Ticket) (L : nat) (R0 : list Configuration)
    (st : resolver) : Prop := mkInv {
  inv_length : length (orderedFields st) = L;
  inv_below : ∀ p, p ∈ assigned (trace st) → (p < L)%nat;
  inv_nodup : NoDup (assigned (trace st));
  inv_spent : ∀ p values, p ∈ assigned (trace st) →
                columnValues tickets p = Done values →
                passing values (configs st) = [];
  inv_entry : ∀ p c, (p, c) ∈ assignments (trace st) →
                orderedFields st !! p = Some (Field c);
  inv_valid : ∀ p c values, (p, c) ∈ assignments (trace st) →
                columnValues tickets p = Done values →
                isValidConfig values c = true;
  inv_perm : R0 ≡ₚ configs st ++ (assignments (trace st)).*2
}.

(** ** Elimination orders *)

(** Whether every value of column [fieldPos] satisfies [config]. *)
Definition satisfiesColumn (tickets : list Ticket) (fieldPos : nat)
    (config : Configuration) : bool :=
  match columnValues tickets fieldPos with
  | Done values => isValidConfig values config
  | _ => false
  end.

(** [eliminable tickets L R order]: [order] lists, stage by stage, a
    position below [L] with a single surviving candidate among the
    configurations that remain, together with the index of that candidate,
    which is then eliminated; and the stages exhaust [R]. *)
Fixpoint eliminable (tickets : list Ticket) (L : nat)
    (R : list Configuration) (order : list (nat * nat)) : bool :=
  match order with
  | [] => match R with [] => true | _ :: _ => false end
  | (p, i) :: rest =>
      (p <? L)%nat
      && match R !! i with
         | Some c => satisfiesColumn tickets p c
         | None => false
         end
      && (length (filter (fun c => satisfiesColumn tickets p c = true) R) =? 1)%nat
      && eliminable tickets L (delete i R) rest
  end.

(** The same, as a derivation. *)
Inductive Elim (tickets : list Ticket) (L : nat) : list Configuration → Prop :=
| Elim_nil : Elim tickets L []
| Elim_step p values R1 c R2 :
    (p < L)%nat →
    columnValues tickets p = Done values →
    passing values R1 = [] →
    isValidConfig values c = true →
    passing values R2 = [] →
    Elim tickets L (R1 ++ R2) →
    Elim tickets L (R1 ++ c :: R2).

(** ** Ticket lists without short tickets *)

(** All tickets have at least [L] values. *)
Definition wide (L : nat) (tickets : list Ticket) : Prop :=
  Forall (fun t => (L ≤ length (Values t))%nat) tickets.

(** ** Positions that already have a name *)

(** A trace in which the position loop is only ever entered for positions
    that no earlier event has assigned. *)
Definition visits_unassigned_only (tr : list event) : Prop :=
  ∀ pre p R post, tr = pre ++ Visit p R :: post → p ∉ assigned pre.

(** One ticket [1,2,3] and the fields [a: 1-3], [b: 1-2], [c: 1-1]: the
    third column is resolved in the first pass, the second in the second
    pass, the first in the third. *)
Definition tickets_abc : list Ticket := [mkTicket [1; 2; 3]].

Definition configs_abc : list Configuration :=
  [ mkConfiguration "a" [mkValidRange 1 3];
    mkConfiguration "b" [mkValidRange 1 2];
    mkConfiguration "c" [mkValidRange 1 1] ].

(** ** Passes that resolve nothing *)

(** No position below [L] has exactly one passing configuration in [R]. *)
Definition stuck (tickets : list Ticket) (ps : list nat)
    (R : list Configuration) : Prop :=
  ∀ p, p ∈ ps → ∃ values, columnValues tickets p = Done values ∧
                           length (passing values R) ≠ 1%nat.

(** ** The Go library functions the parsers call *)
Module Go.

(** [strings.HasPrefix]. *)
Definition HasPrefix (s prefix : string) : bool := String.prefix prefix s.

(** [strings.Index]: the index of the first instance of [substr], or -1. *)
Definition Index (s substr : string) : Z :=
  match String.index 0 substr s with
  | Some n => Z.of_nat n
  | None => -1
  end.

(** The slice expressions [s[:hi]] and [s[lo:]], which panic when the
    bound is outside [0 .. len(s)]. *)
Definition sliceTo (s : string) (hi : Z) : result string :=
  if (0 <=? hi) && (hi <=? Z.of_nat (String.length s))
  then Done (String.substring 0 (Z.to_nat hi) s)
  else Panic.

Definition sliceFrom (s : string) (lo : Z) : result string :=
  if (0 <=? lo) && (lo <=? Z.of_nat (String.length s))
  then Done (String.substring (Z.to_nat lo)
               (String.length s - Z.to_nat lo) s)
  else Panic.

(** [strings.Split] for a non-empty separator: the pieces between the
    instances of [sep], found from the left and not overlapping. [skip]
    counts the bytes of a matched separator still to be passed over, [cur]
    is the piece being read. *)
Fixpoint splitFrom (sep s : string) (skip : nat) (cur : string)
    : list string :=
  match s with
  | EmptyString => [cur]
  | String a s' =>
      match skip with
      | S k => splitFrom sep s' k cur
      | O =>
          if String.prefix sep s
          then cur :: splitFrom sep s' (String.length sep - 1) EmptyString
          else splitFrom sep s' 0 (cur ++ String a EmptyString)
      end
  end.

Definition Split (s sep : string) : list string :=
  splitFrom sep s 0 EmptyString.

(** [strconv.ParseUint(s, 10, 64)] on the digits read so far. *)
Inductive uint_result : Type :=
| UintOk (n : Z)
| UintSyntax
| UintRange.

Definition maxUint64 : Z := 2 ^ 64 - 1.

Definition digit (c : ascii) : option Z :=
  let n := Z.of_nat (nat_of_ascii c) in
  if (48 <=? n) && (n <=? 57) then Some (n - 48) else None.

Fixpoint parseDigits (s : string) (n : Z) : uint_result :=
  match s with
  | EmptyString => UintOk n
  | String c s' =>
      match digit c with
      | None => UintSyntax
      | Some d =>
          if n >=? maxUint64 / 10 + 1 then UintRange
          else
            let n1 := n * 10 + d in
            if n1 >? maxUint64 then UintRange else parseDigits s' n1
      end
  end.

Definition ParseUint (s : string) : uint_result :=
  match s with
  | EmptyString => UintSyntax
  | _ => parseDigits s 0
  end.

(** [strconv.Atoi] with its error dropped: 0 on a syntax error, the
    nearest [int] on a range error. *)
Definition Atoi (s : string) : Z :=
  match s with
  | EmptyString => 0
  | String c s' =>
      let neg := Ascii.eqb c "-"%char in
      let digits := if Ascii.eqb c "+"%char || neg then s' else s in
      match ParseUint digits with
      | UintSyntax => 0
      | UintRange => if neg then GoInt.min_int else GoInt.max_int
      | UintOk un =>
          if negb neg && (un >=? 2 ^ 63) then GoInt.max_int
          else if neg && (un >? 2 ^ 63) then GoInt.min_int
          else if neg then - un else un
      end
  end.

End Go.

(** ** The parsers *)

(** The loop of [parseConfiguration] over the pieces of the range list;
    [minMax[1]] panics on a piece without ["-"]. *)
Fixpoint parseRanges (ranges : list string) : result (list ValidRange) :=
  match ranges with
  | [] => Done []
  | rng :: rest =>
      let minMax := Go.Split rng "-" in
      match minMax !! 0%nat, minMax !! 1%nat with
      | Some lo, Some hi =>
          let! validRanges := parseRanges rest in
          Done (mkValidRange (Go.Atoi lo) (Go.Atoi hi) :: validRanges)
      | _, _ => Panic
      end
  end.

(** [parseConfiguration]: [<Field>: <range> or <range> ...]. *)
Definition parseConfiguration (config : string) : result Configuration :=
  let colonIdx := Go.Index config ":" in
  let! field := Go.sliceTo config colonIdx in
  let! config' := Go.sliceFrom config (colonIdx + 2) in
  let ranges := Go.Split config' " or " in
  let! validRanges := parseRanges ranges in
  Done (mkConfiguration field validRanges).

(** [parseTicket]: integers separated by commas. *)
Definition parseTicket (ticketData : string) : Ticket :=
  mkTicket (Go.Atoi <$> Go.Split ticketData ",").

(** ** The driver *)
Module Main.

(** The markers that open the two ticket sections. *)
Definition YourTicket : string := "your ticket".
Definition NearbyTickets : string := "nearby tickets".

(** The variables of [main] that the reading loop updates. *)
Record state : Type := mkState {
  readConfiguration : bool;
  readYourTicket : bool;
  readNearbyTicket : bool;
  configs : list Configuration;
  myTicket : Ticket;
  validNearbyTickets : list Ticket;
  invalidValues : list Z
}.

Definition state_init : state :=
  mkState true false false [] Ticket_zero [] [].

Definition setFlags (c y n : bool) (st : state) : state :=
  mkState c y n (configs st) (myTicket st) (validNearbyTickets st)
          (invalidValues st).

(** The body of [for scanner.Scan()] on one line. *)
Definition processLine (st : state) (line : string) : result state :=
  if (String.length line =? 0)%nat then Done st
  else if Go.HasPrefix line YourTicket then Done (setFlags false true false st)
  else if Go.HasPrefix line NearbyTickets then Done (setFlags false false true st)
  else if readConfiguration st then
    let! newConfig := parseConfiguration line in
    Done (mkState (readConfiguration st) (readYourTicket st)
            (readNearbyTicket st) (configs st ++ [newConfig]) (myTicket st)
            (validNearbyTickets st) (invalidValues st))
  else if readYourTicket st then
    let myTicket' := parseTicket line in
    Done (mkState (readConfiguration st) (readYourTicket st)
            (readNearbyTicket st) (configs st) myTicket'
            (validNearbyTickets st ++ [myTicket']) (invalidValues st))
  else if readNearbyTicket st then
    let nearbyTicket := parseTicket line in
    let '(valid, invalids) := isValidTicket nearbyTicket (configs st) in
    if negb valid then
      Done (mkState (readConfiguration st) (readYourTicket st)
              (readNearbyTicket st) (configs st) (myTicket st)
              (validNearbyTickets st) (invalidValues st ++ invalids))
    else
      Done (mkState (readConfiguration st) (readYourTicket st)
              (readNearbyTicket st) (configs st) (myTicket st)
              (validNearbyTickets st ++ [nearbyTicket]) (invalidValues st))
  else Done st.

(** The reading loop over the lines the scanner yields. *)
Fixpoint readLines (lines : list string) (st : state) : result state :=
  match lines with
  | [] => Done st
  | line :: rest => let! st' := processLine st line in readLines rest st'
  end.

(** [sum := 0; for _, value := range invalidValues { sum += value }]. *)
Definition sumValues (values : list Z) : Z :=
  fold_left (fun sum value => GoInt.add sum value) values 0.

(** The loop over [orderedFields], from index [idx] on, with accumulator
    [mul]; [myTicket.Values[idx]] panics past the end of the ticket. *)
Fixpoint departureProduct (orderedFields : list string) (idx : nat)
    (ticket : Ticket) (mul : Z) : result Z :=
  match orderedFields with
  | [] => Done mul
  | field :: rest =>
      if Go.HasPrefix field "departure " then
        match Values ticket !! idx with
        | Some v => departureProduct rest (S idx) ticket (GoInt.mul mul v)
        | None => Panic
        end
      else departureProduct rest (S idx) ticket mul
  end.

(** Part 2: the ordering of the fields, then the product. *)
Definition part2 (fuel : nat) (st : state) : result Z :=
  let! orderedFields := getOrdering fuel (validNearbyTickets st) (configs st) in
  departureProduct orderedFields 0 (myTicket st) 1.

(** [main] once [input.txt] is open, on the lines the scanner yields: the
    integers printed, in order, and how the program ends. The sum is
    printed before part 2 starts. *)
Definition main (fuel : nat) (lines : list string) : list Z * result unit :=
  match readLines lines state_init with
  | Done st =>
      let sum := sumValues (invalidValues st) in
      match part2 fuel st with
      | Done mul => ([sum; mul], Done tt)
      | Panic => ([sum], Panic)
      | Timeout => ([sum], Timeout)
      end
  | Panic => ([], Panic)
  | Timeout => ([], Timeout)
  end.

End Main.

(** The sample of the puzzle text, first part. *)
Definition sample1 : list string :=
  [ "class: 1-3 or 5-7"; "row: 6-11 or 33-44"; "seat: 13-40 or 45-50"; "";
    "your ticket:"; "7,1,14"; "";
    "nearby tickets:"; "7,3,47"; "40,4,50"; "55,2,20"; "38,6,12" ]%string.

(** The sample of the second part, with two of its fields renamed so that
    they are departure fields. *)
Definition sample2 : list string :=
  [ "departure class: 0-1 or 4-19"; "row: 0-5 or 8-19";
    "departure seat: 0-13 or 16-19"; "";
    "your ticket:"; "11,12,13"; "";
    "nearby tickets:"; "3,9,18"; "15,1,5"; "5,14,9" ]%string.

(** An input whose three nearby tickets are all invalid, with uncovered
    values 9223372036854775807, 9223372036854775807 and 5: their sum is
    2^64 + 3. *)
Definition sample_sum_overflow : list string :=
  [ "class: 1-3"; "";
    "your ticket:"; "1"; "";
    "nearby tickets:"; "9223372036854775807"; "9223372036854775807"; "5"
  ]%string.

(** An input with two departure fields and the own ticket 2^62, 3: the
    product of its departure values is 3 * 2^62. *)
Definition sample_product_overflow : list string :=
  [ "departure a: 0-5"; "departure b: 0-4611686018427387904"; "";
    "your ticket:"; "4611686018427387904,3"; "";
    "nearby tickets:" ]%string.

(** ** The layout of the input *)

(** The three sections of the input. *)
Inductive section : Type := Constraints | OwnTicket | Nearby.

#[global] Instance section_eq_dec : EqDecision section.
Proof. solve_decision. Defined.

Definition isBlank (line : string) : bool := (String.length line =? 0)%nat.

(** The data lines of the input, each with the section it stands in: a
    blank line is dropped, a line that starts with a marker opens the
    section of that marker, and any other line belongs to the section
    opened last ([current] at the start). *)
Fixpoint sectionLines (current : section) (lines : list string)
    : list (section * string) :=
  match lines with
  | [] => []
  | line :: rest =>
      if isBlank line then sectionLines current rest
      else if Go.HasPrefix line Main.YourTicket then sectionLines OwnTicket rest
      else if Go.HasPrefix line Main.NearbyTickets then sectionLines Nearby rest
      else (current, line) :: sectionLines current rest
  end.

(** The data lines of one section. *)
Definition only (sec : section) (entries : list (section * string))
    : list string :=
  (filter (fun e => e.1 = sec) entries).*2.

Definition sectionOf (sec : section) (lines : list string) : list string :=
  only sec (sectionLines Constraints lines).

(** All constraint lines parsed, in order; a panic on any of them. *)
Fixpoint parseConfigurations (lines : list string)
    : result (list Configuration) :=
  match lines with
  | [] => Done []
  | line :: rest =>
      let! c := parseConfiguration line in
      let! cs := parseConfigurations rest in
      Done (c :: cs)
  end.

(** The records a data line contributes to the input of the resolver: none
    for a constraint line, the ticket for a line of the own-ticket section,
    the ticket if it is valid for a line of the nearby section. *)
Definition recordsOf (cfgs : list Configuration) (e : section * string)
    : list Ticket :=
  match e.1 with
  | Constraints => []
  | OwnTicket => [parseTicket e.2]
  | Nearby =>
      if fst (isValidTicket (parseTicket e.2) cfgs) then [parseTicket e.2]
      else []
  end.

(** The values a data line contributes to the invalid values. *)
Definition rejectsOf (cfgs : list Configuration) (e : section * string)
    : list Z :=
  match e.1 with
  | Nearby => snd (isValidTicket (parseTicket e.2) cfgs)
  | _ => []
  end.

(** The own ticket: the last line of the own-ticket section, or the zero
    ticket when there is none. *)
Definition ownTicket (entries : list (section * string)) (before : Ticket)
    : Ticket :=
  default before (last (parseTicket <$> only OwnTicket entries)).

Definition sectionFlags (m : section) : bool * bool * bool :=
  match m with
  | Constraints => (true, false, false)
  | OwnTicket => (false, true, false)
  | Nearby => (false, false, true)
  end.

Definition flags (st : Main.state) : bool * bool * bool :=
  (Main.readConfiguration st, Main.readYourTicket st, Main.readNearbyTicket st).

(** ** Sums and products of Go [int]s *)

Definition total (values : list Z) : Z := foldr Z.add 0 values.
Definition product (values : list Z) : Z := foldr Z.mul 1 values.

(** ** Departure values *)

(** The values of [own] at the positions whose name in [ordered] starts
    with ["departure "]. *)
Definition departureValues (ordered : list string) (values : list Z)
    : list Z :=
  (filter (fun e => Go.HasPrefix e.1 "departure " = true)
          (zip ordered values)).*2.

(** ** Sample inputs and states *)

(** The states of the run on [tickets_abc] and [configs_abc] after its
    first and second pass. *)
Definition state_abc_pass1 : resolver :=
  Eval vm_compute in
    match pass tickets_abc 3 (resolver_init 3 configs_abc) with
    | Done st => st
    | _ => resolver_init 3 configs_abc
    end.

Definition state_abc_pass2 : resolver :=
  Eval vm_compute in
    match pass tickets_abc 3 state_abc_pass1 with
    | Done st => st
    | _ => state_abc_pass1
    end.

(** One ticket with one value and two fields that both hold it: no pass
    ever resolves the only position. *)
Definition tickets_one : list Ticket := [mkTicket [1]].

Definition configs_twins : list Configuration :=
  [ mkConfiguration "x" [mkValidRange 1 1];
    mkConfiguration "y" [mkValidRange 1 1] ].

Definition configs_sample1 : list Configuration :=
  [ mkConfiguration "class" [mkValidRange 1 3; mkValidRange 5 7];
    mkConfiguration "row" [mkValidRange 6 11; mkValidRange 33 44];
    mkConfiguration "seat" [mkValidRange 13 40; mkValidRange 45 50] ].

Definition configs_sample2 : list Configuration :=
  [ mkConfiguration "departure class" [mkValidRange 0 1; mkValidRange 4 19];
    mkConfiguration "row" [mkValidRange 0 5; mkValidRange 8 19];
    mkConfiguration "departure seat" [mkValidRange 0 13; mkValidRange 16 19] ].

(** ** The input format and further vocabulary *)

(** The columns of two permuted ticket lists: both reads panic, or both
    succeed with permuted values. *)
Definition same_column (r r' : result (list Z)) : Prop :=
  match r, r' with
  | Done values, Done values' => values ≡ₚ values'
  | Panic, Panic => True
  | _, _ => False
  end.

(** A line that opens a ticket section. *)
Definition isMarker (line : string) : bool :=
  negb (isBlank line)
  && (Go.HasPrefix line Main.YourTicket || Go.HasPrefix line Main.NearbyTickets).

(** The bytes of a string, and the number of its bytes equal to [a]. *)
Definition chars (s : string) : list ascii := list_ascii_of_string s.

Definition countChar (a : ascii) (s : string) : nat :=
  length (filter (fun c => c = a) (chars s)).

(** A byte that [strconv] reads as a decimal digit. *)
Definition digitChar (c : ascii) : Prop := is_Some (Go.digit c).

(** The nearest Go [int]. *)
Definition clamp (z : Z) : Z := Z.max GoInt.min_int (Z.min z GoInt.max_int).

(** A range, a configuration and a ticket in the format of the input. *)
Definition rangeText (r : ValidRange) : string :=
  pretty (Min r) +:+ "-" +:+ pretty (Max r).

Definition configText (c : Configuration) : string :=
  Field c +:+ ": " +:+ String.concat " or " (rangeText <$> Ranges c).

Definition ticketText (t : Ticket) : string :=
  String.concat "," (pretty <$> Values t).

(** What it takes for a configuration and for a ticket to be written in the
    input format and read back. *)
Definition wellFormedConfig (c : Configuration) : Prop :=
  (":"%char ∉ chars (Field c))
  ∧ Ranges c ≠ []
  ∧ Forall (fun r => 0 ≤ Min r ≤ GoInt.max_int ∧ 0 ≤ Max r ≤ GoInt.max_int)
           (Ranges c)
  ∧ isMarker (configText c) = false.

Definition wellFormedTicket (t : Ticket) : Prop :=
  Values t ≠ [] ∧ Forall GoInt.in_range (Values t).

(** The lines of an input: the configurations, the own ticket under its
    marker, the nearby tickets under theirs. *)
Definition inputText (cfgs : list Configuration) (own : Ticket)
    (nearby : list Ticket) : list string :=
  (configText <$> cfgs)
  ++ ["your ticket:"%string; ticketText own; "nearby tickets:"%string]
  ++ (ticketText <$> nearby).

(** A line that is neither blank nor a marker. *)
Definition dataLine (line : string) : Prop :=
  isBlank line = false ∧ isMarker line = false.

Definition ticket_7_3_47 : Ticket := mkTicket [7; 3; 47].

Definition tickets_ragged : list Ticket := [mkTicket [1; 2]; mkTicket [1]].

Definition lines_constraints_only : list string := ["class: 1-3 or 5-7"%string].

Definition ticket_own2 : Ticket := mkTicket [11; 12; 13].

Definition tickets_nearby2 : list Ticket :=
  [mkTicket [3; 9; 18]; mkTicket [15; 1; 5]; mkTicket [5; 14; 9]].

(** * Properties *)

(** ** The validator *)

Lemma inRange_spec v r : inRange v r = true ↔ Min r ≤ v ≤ Max r.
Proof. unfold inRange. rewrite andb_true_iff. lia. Qed.

Lemma foundValid_ranges_spec v rs fv :
  foundValid_ranges v rs fv = true ↔
  fv = true ∨ Exists (fun r => Min r ≤ v ≤ Max r) rs.
Proof.
  unfold foundValid_ranges. revert fv.
  induction rs as [|r rs IH]; intros fv; simpl.
  - rewrite Exists_nil. tauto.
  - rewrite IH, Exists_cons, <- inRange_spec.
    destruct (inRange v r), fv; intuition congruence.
Qed.

Lemma foundValid_configs_spec v cs fv :
  foundValid_configs v cs fv = true ↔ fv = true ∨ covered cs v.
Proof.
  unfold foundValid_configs, covered. revert fv.
  induction cs as [|c cs IH]; intros fv; simpl.
  - rewrite Exists_nil. tauto.
  - rewrite IH, foundValid_ranges_spec, Exists_cons. tauto.
Qed.

Lemma collectInvalid_spec cs vs inv :
  collectInvalid cs vs inv = inv ++ uncovered cs vs.
Proof.
  unfold collectInvalid, uncovered. revert inv.
  induction vs as [|v vs IH]; intros inv; simpl.
  - by rewrite app_nil_r.
  - rewrite IH, filter_cons.
    pose proof (foundValid_configs_spec v cs false) as [Hto Hfrom].
    destruct (foundValid_configs v cs false); simpl.
    + rewrite decide_False; [done|]. intros Hn.
      destruct (Hto eq_refl) as [?|Hc]; [done|]. by apply Hn.
    + rewrite decide_True; [by rewrite <- app_assoc|].
      intros Hc. assert (false = true) by (apply Hfrom; by right). done.
Qed.

Lemma uncovered_nil_iff cs vs : uncovered cs vs = [] ↔ Forall (covered cs) vs.
Proof.
  unfold uncovered. induction vs as [|v vs IH]; simpl.
  - split; [constructor|done].
  - rewrite filter_cons, Forall_cons. destruct (decide (¬ covered cs v)) as [Hn|Hn].
    + split; [done|]. intros [? _]. done.
    + rewrite IH. split; [|tauto]. intros ?. split; [|done].
      destruct (decide (covered cs v)); [done|tauto].
Qed.

Lemma isValidTicket_unfold t cs :
  isValidTicket t cs =
  match uncovered cs (Values t) with
  | [] => (true, [])
  | _ :: _ => (false, uncovered cs (Values t))
  end.
Proof.
  unfold isValidTicket. rewrite collectInvalid_spec. simpl.
  by destruct (uncovered cs (Values t)).
Qed.

Lemma isValidTicket_fst t cs :
  fst (isValidTicket t cs) = true ↔ Forall (covered cs) (Values t).
Proof.
  rewrite isValidTicket_unfold, <- uncovered_nil_iff.
  by destruct (uncovered cs (Values t)).
Qed.

Lemma isValidTicket_snd t cs :
  snd (isValidTicket t cs) = uncovered cs (Values t).
Proof.
  rewrite isValidTicket_unfold. by destruct (uncovered cs (Values t)).
Qed.

(** C1. [isValidTicket] answers [true] exactly when every value of the
    record is covered by some range of some configuration; the sequence it
    returns is the sub-sequence of the uncovered values of the record, in
    record order and with their multiplicities; and that sequence is empty
    when the record is valid. *)
Theorem isValidTicket_correct (ticket : Ticket) (configs : list Configuration) :
  (fst (isValidTicket ticket configs) = true ↔
     Forall (covered configs) (Values ticket))
  ∧ (∀ v, covered configs v ↔
          ∃ c r, c ∈ configs ∧ r ∈ Ranges c ∧ Min r ≤ v ≤ Max r)
  ∧ snd (isValidTicket ticket configs) =
      filter (fun v => ¬ covered configs v) (Values ticket)
  ∧ (fst (isValidTicket ticket configs) = true →
     snd (isValidTicket ticket configs) = []).
Proof.
  split; [apply isValidTicket_fst|]. split; [|split].
  - intros v. unfold covered. rewrite Exists_exists. split.
    + intros (c & Hc & Hr). apply Exists_exists in Hr as (r & Hr & Hv). eauto.
    + intros (c & r & Hc & Hr & Hv). exists c. split; [done|].
      apply Exists_exists. eauto.
  - apply isValidTicket_snd.
  - intros Hv. rewrite isValidTicket_snd. apply uncovered_nil_iff.
    by apply isValidTicket_fst.
Qed.

(** ** The scan of the remaining configurations *)

Lemma passing_app values R1 R2 :
  passing values (R1 ++ R2) = passing values R1 ++ passing values R2.
Proof. apply filter_app. Qed.

Lemma passing_cons_true values c R :
  isValidConfig values c = true →
  passing values (c :: R) = c :: passing values R.
Proof. intros H. unfold passing. by rewrite filter_cons_True. Qed.

Lemma passing_cons_false values c R :
  isValidConfig values c = false →
  passing values (c :: R) = passing values R.
Proof.
  intros H. unfold passing. rewrite filter_cons_False; [done|congruence].
Qed.

(** A list of configurations either has no passing element or splits at
    its first passing element. *)
Lemma passing_split values R :
  passing values R = [] ∨
  ∃ R1 c R2, R = R1 ++ c :: R2 ∧ passing values R1 = [] ∧
             isValidConfig values c = true.
Proof.
  induction R as [|c R IH]; [by left|].
  destruct (isValidConfig values c) eqn:E.
  - right. exists [], c, R. done.
  - destruct IH as [IH|(R1 & c' & R2 & -> & H1 & Hc)].
    + left. by rewrite passing_cons_false.
    + right. exists (c :: R1), c', R2. split; [done|].
      split; [|done]. by rewrite passing_cons_false.
Qed.

Lemma scanConfigs_skip values R1 R idx s :
  passing values R1 = [] →
  scanConfigs values (R1 ++ R) idx s =
  scanConfigs values R (idx + Z.of_nat (length R1)) (scan_tick (length R1) s).
Proof.
  revert idx s. induction R1 as [|c R1 IH]; intros idx s H; simpl.
  - unfold scan_tick. destruct s; simpl. rewrite Z.add_0_r, Nat.add_0_r. done.
  - destruct (isValidConfig values c) eqn:E.
    + by rewrite passing_cons_true in H.
    + rewrite passing_cons_false in H by done. rewrite IH by done.
      f_equal; [lia|]. unfold scan_tick; simpl. f_equal. lia.
Qed.

Lemma scanConfigs_none values R idx s :
  passing values R = [] →
  scanConfigs values R idx s = scan_tick (length R) s.
Proof.
  intros H. rewrite <- (app_nil_r R) at 1.
  by rewrite scanConfigs_skip.
Qed.

(** Exactly one passing configuration: it is the one recorded, and every
    configuration has been tested. *)
Lemma scanConfigs_one values R1 c R2 :
  passing values R1 = [] → isValidConfig values c = true →
  passing values R2 = [] →
  scanConfigs values (R1 ++ c :: R2) 0 scan_init =
  mkScan 1 c (Z.of_nat (length R1)) (length (R1 ++ c :: R2)).
Proof.
  intros H1 Hc H2. rewrite scanConfigs_skip by done. simpl.
  rewrite Hc. simpl. rewrite scanConfigs_none by done.
  unfold scan_tick; simpl. f_equal. rewrite length_app. simpl. lia.
Qed.

(** At least two passing configurations: the scan is left at the second
    one, whatever follows it. *)
Lemma scanConfigs_two values R1 c1 R2 c2 R3 :
  passing values R1 = [] → isValidConfig values c1 = true →
  passing values R2 = [] → isValidConfig values c2 = true →
  scanConfigs values (R1 ++ c1 :: R2 ++ c2 :: R3) 0 scan_init =
  mkScan 2 c2 (Z.of_nat (length R1 + 1 + length R2))
         (length R1 + 1 + length R2 + 1).
Proof.
  intros H1 Hc1 H2 Hc2. rewrite scanConfigs_skip by done. simpl.
  rewrite Hc1. simpl. rewrite scanConfigs_skip by done. simpl.
  rewrite Hc2. simpl. f_equal; lia.
Qed.

(** The three outcomes of a scan, by the number of passing configurations. *)
Lemma scanConfigs_cases values R :
  (passing values R = [] ∧
   scanConfigs values R 0 scan_init = scan_tick (length R) scan_init)
  ∨ (∃ R1 c R2, R = R1 ++ c :: R2 ∧ passing values R1 = [] ∧
       isValidConfig values c = true ∧ passing values R2 = [] ∧
       scanConfigs values R 0 scan_init =
       mkScan 1 c (Z.of_nat (length R1)) (length R))
  ∨ (∃ R1 c1 R2 c2 R3, R = R1 ++ c1 :: R2 ++ c2 :: R3 ∧
       passing values R1 = [] ∧ isValidConfig values c1 = true ∧
       passing values R2 = [] ∧ isValidConfig values c2 = true ∧
       scanConfigs values R 0 scan_init =
       mkScan 2 c2 (Z.of_nat (length R1 + 1 + length R2))
              (length R1 + 1 + length R2 + 1)).
Proof.
  destruct (passing_split values R) as [H|(R1 & c1 & R' & -> & H1 & Hc1)].
  { left. split; [done|]. by apply scanConfigs_none. }
  right. destruct (passing_split values R') as [H|(R2 & c2 & R3 & -> & H2 & Hc2)].
  - left. exists R1, c1, R'. repeat (split; [done|]).
    by apply scanConfigs_one.
  - right. exists R1, c1, R2, c2, R3. repeat (split; [done|]).
    by apply scanConfigs_two.
Qed.

Lemma passing_length_one values R1 c R2 :
  passing values R1 = [] → isValidConfig values c = true →
  passing values R2 = [] →
  passing values (R1 ++ c :: R2) = [c].
Proof.
  intros H1 Hc H2.
  by rewrite passing_app, passing_cons_true, H1, H2.
Qed.

Lemma passing_length_two values R1 c1 R2 c2 R3 :
  passing values R1 = [] → isValidConfig values c1 = true →
  passing values R2 = [] → isValidConfig values c2 = true →
  passing values (R1 ++ c1 :: R2 ++ c2 :: R3) = c1 :: c2 :: passing values R3.
Proof.
  intros H1 Hc1 H2 Hc2.
  rewrite passing_app, passing_cons_true, passing_app, passing_cons_true by done.
  by rewrite H1, H2.
Qed.

(** The counter of the scan is the number of passing configurations, capped
    at two. *)
Lemma scanConfigs_count values R :
  validConfigCount (scanConfigs values R 0 scan_init) =
  Z.min 2 (Z.of_nat (length (passing values R))).
Proof.
  destruct (scanConfigs_cases values R)
    as [[H ->]|[(R1 & c & R2 & -> & H1 & Hc & H2 & ->)
               |(R1 & c1 & R2 & c2 & R3 & -> & H1 & Hc1 & H2 & Hc2 & ->)]].
  - rewrite H. done.
  - rewrite passing_length_one by done. done.
  - rewrite passing_length_two by done. simpl. lia.
Qed.

Lemma removeAt_middle (R1 : list Configuration) c R2 :
  removeAt (Z.of_nat (length R1)) (R1 ++ c :: R2) = Done (R1 ++ R2).
Proof.
  unfold removeAt. rewrite length_app. simpl.
  destruct (_ && _) eqn:E.
  - f_equal. rewrite Nat2Z.id.
    replace (Z.to_nat (Z.of_nat (length R1) + 1)) with (S (length R1)) by lia.
    rewrite take_app_length. f_equal.
    rewrite (cons_middle c R1 R2), app_assoc.
    apply drop_app_length'. rewrite length_app. simpl. lia.
  - apply andb_false_iff in E as [E|E]; [apply Z.leb_gt in E|apply Z.leb_gt in E]; lia.
Qed.

(** What one iteration of the position loop does, by cases on the passing
    configurations. *)
Lemma scanPosition_cases tickets fieldPos st values :
  columnValues tickets fieldPos = Done values →
  (∃ R1 c R2, configs st = R1 ++ c :: R2 ∧ passing values R1 = [] ∧
      isValidConfig values c = true ∧ passing values R2 = [] ∧
      scanPosition tickets fieldPos st =
      Done (mkResolver (R1 ++ R2)
              (<[fieldPos := Field c]> (orderedFields st))
              (trace st ++ [Visit fieldPos (configs st);
                            Assign fieldPos (length R1) c])))
  ∨ (length (passing values (configs st)) ≠ 1%nat ∧
     scanPosition tickets fieldPos st =
     Done (mkResolver (configs st) (orderedFields st)
             (trace st ++ [Visit fieldPos (configs st)]))).
Proof.
  intros Hv. unfold scanPosition. rewrite Hv. simpl.
  destruct (scanConfigs_cases values (configs st))
    as [[H ->]|[(R1 & c & R2 & HR & H1 & Hc & H2 & ->)
               |(R1 & c1 & R2 & c2 & R3 & HR & H1 & Hc1 & H2 & Hc2 & ->)]].
  - right. rewrite H. simpl. done.
  - left. exists R1, c, R2. repeat (split; [done|]). simpl.
    rewrite HR, removeAt_middle. simpl. rewrite Nat2Z.id.
    by rewrite <- app_assoc.
  - right. rewrite HR, passing_length_two by done. simpl. split; [lia|done].
Qed.

(** ** Traces and runs *)

Lemma assignments_app tr1 tr2 :
  assignments (tr1 ++ tr2) = assignments tr1 ++ assignments tr2.
Proof. apply omap_app. Qed.

Lemma visits_app tr1 tr2 : visits (tr1 ++ tr2) = visits tr1 ++ visits tr2.
Proof. apply omap_app. Qed.

Lemma eliminations_app tr1 tr2 :
  eliminations (tr1 ++ tr2) = eliminations tr1 ++ eliminations tr2.
Proof. apply omap_app. Qed.

Lemma assigned_app tr1 tr2 : assigned (tr1 ++ tr2) = assigned tr1 ++ assigned tr2.
Proof. unfold assigned. by rewrite assignments_app, fmap_app. Qed.

Lemma visited_app tr1 tr2 : visited (tr1 ++ tr2) = visited tr1 ++ visited tr2.
Proof. unfold visited. by rewrite visits_app, fmap_app. Qed.

Lemma scanPosition_trace tickets p st st1 :
  scanPosition tickets p st = Done st1 →
  ∃ evs, trace st1 = trace st ++ evs ∧
         visits evs = [(p, configs st)] ∧
         configs st1 `sublist_of` configs st ∧
         length (orderedFields st1) = length (orderedFields st).
Proof.
  intros H. destruct (columnValues tickets p) as [values| |] eqn:Hv;
    [|unfold scanPosition in H; rewrite Hv in H; done..].
  destruct (scanPosition_cases tickets p st values Hv)
    as [(R1 & c & R2 & HR & H1 & Hc & H2 & Hs)|[Hn Hs]];
    rewrite Hs in H; injection H as <-; simpl.
  - eexists. split; [done|]. split; [done|]. split.
    + rewrite HR. apply sublist_app; [done|]. by apply sublist_cons.
    + by rewrite length_insert.
  - eexists. split; [done|]. done.
Qed.

Lemma steps_trace tickets L st evs st' :
  steps tickets L st evs st' → trace st' = trace st ++ evs.
Proof.
  induction 1 as [|st p st1 evs1 evs2 st2 Hp Hs Ht _ IH]; [by rewrite app_nil_r|].
  by rewrite IH, Ht, app_assoc.
Qed.

Lemma steps_trans tickets L st1 evs1 st2 evs2 st3 :
  steps tickets L st1 evs1 st2 → steps tickets L st2 evs2 st3 →
  steps tickets L st1 (evs1 ++ evs2) st3.
Proof.
  induction 1 as [|st p st1 e1 e2 st2 Hp Hs Ht _ IH]; intros H3; [done|].
  rewrite <- app_assoc. eapply steps_cons; eauto.
Qed.

Lemma steps_sublist tickets L st evs st' :
  steps tickets L st evs st' →
  configs st' `sublist_of` configs st ∧
  length (orderedFields st') = length (orderedFields st) ∧
  ∀ q R, (q, R) ∈ visits evs → R `sublist_of` configs st.
Proof.
  induction 1 as [|st p st1 evs1 evs2 st2 Hp Hs Ht _ (IH1 & IH2 & IH3)].
  - split; [done|]. split; [done|]. intros q R H. by apply elem_of_nil in H.
  - destruct (scanPosition_trace _ _ _ _ Hs) as (evs & He & Hv & Hsub & Hlen).
    rewrite Ht in He. apply app_inv_head in He as <-.
    split; [by etrans|]. split; [congruence|].
    intros q R H. rewrite visits_app, Hv in H.
    apply elem_of_app in H as [H|H].
    + apply list_elem_of_singleton in H. by injection H as -> ->.
    + etrans; [by eapply IH3|done].
Qed.

Lemma passFrom_steps tickets L ps st st' :
  Forall (fun p => (p < L)%nat) ps →
  passFrom tickets ps st = Done st' →
  ∃ evs, steps tickets L st evs st' ∧ visited evs = ps.
Proof.
  revert st. induction ps as [|p ps IH]; intros st Hps H; simpl in H.
  - injection H as <-. exists []. split; [constructor|done].
  - apply Forall_cons in Hps as [Hp Hps].
    destruct (scanPosition tickets p st) as [st1| |] eqn:Hs; [|done..].
    simpl in H. destruct (IH st1 Hps H) as (evs2 & Hsteps & Hvis).
    destruct (scanPosition_trace _ _ _ _ Hs) as (evs1 & He & Hv & _).
    exists (evs1 ++ evs2). split; [by eapply steps_cons|].
    rewrite visited_app, Hvis. unfold visited. by rewrite Hv.
Qed.

Lemma seq_below L : Forall (fun p => (p < L)%nat) (seq 0 L).
Proof. apply Forall_forall. intros p Hp. apply elem_of_seq in Hp. lia. Qed.

Lemma pass_steps tickets L st st' :
  pass tickets L st = Done st' →
  ∃ evs, steps tickets L st evs st' ∧ visited evs = seq 0 L.
Proof. apply passFrom_steps, seq_below. Qed.

Lemma resolveLoop_steps fuel tickets L st st' :
  resolveLoop fuel tickets L st = Done st' →
  ∃ evs, steps tickets L st evs st' ∧ configs st' = [].
Proof.
  revert st. induction fuel as [|fuel IH]; intros st H; simpl in H.
  - destruct (configs st) eqn:E; [|done]. injection H as <-.
    exists []. split; [constructor|done].
  - destruct (configs st) eqn:E.
    + injection H as <-. exists []. split; [constructor|done].
    + destruct (pass tickets L st) as [st1| |] eqn:Hp; [|done..]. simpl in H.
      destruct (pass_steps _ _ _ _ Hp) as (evs1 & H1 & _).
      destruct (IH _ H) as (evs2 & H2 & Hnil).
      exists (evs1 ++ evs2). split; [by eapply steps_trans|done].
Qed.

Lemma scanPosition_column tickets p st st1 :
  scanPosition tickets p st = Done st1 →
  ∃ values, columnValues tickets p = Done values.
Proof.
  unfold scanPosition. destruct (columnValues tickets p); [eauto|done..].
Qed.

Lemma passing_app_nil values R1 c R2 :
  passing values (R1 ++ c :: R2) = [] → passing values (R1 ++ R2) = [].
Proof.
  rewrite !passing_app. intros H. apply app_eq_nil in H as [-> H]. simpl.
  destruct (isValidConfig values c) eqn:E.
  - by rewrite passing_cons_true in H.
  - by rewrite passing_cons_false in H.
Qed.

(** ** The invariant of a run *)
Section Invariant.

Variable tickets : list Ticket.
Variable L : nat.
Variable R0 : list Configuration.

Lemma Inv_init : Inv tickets L R0 (resolver_init L R0).
Proof.
split; simpl.
- apply length_replicate.
- intros p H. by apply elem_of_nil in H.
- constructor.
- intros p values H. by apply elem_of_nil in H.
- intros p c H. by apply elem_of_nil in H.
- intros p c values H. by apply elem_of_nil in H.
- by rewrite app_nil_r.
Qed.

Lemma Inv_scanPosition st p st1 :
(p < L)%nat → Inv tickets L R0 st →
scanPosition tickets p st = Done st1 → Inv tickets L R0 st1.
Proof.
intros Hp HI Hs.
destruct (scanPosition_column _ _ _ _ Hs) as [values Hv].
destruct (scanPosition_cases tickets p st values Hv)
  as [(R1 & c & R2 & HR & H1 & Hc & H2 & Hs')|[Hn Hs']];
  rewrite Hs' in Hs; injection Hs as <-.
- assert (Hfresh : p ∉ assigned (trace st)).
  { intros Hin. pose proof (inv_spent _ _ _ _ HI p values Hin Hv) as Hnil.
    rewrite HR, passing_length_one in Hnil by done. done. }
  assert (Hasg : assignments (trace st ++
            [Visit p (configs st); Assign p (length R1) c]) =
            assignments (trace st) ++ [(p, c)]).
  { by rewrite assignments_app. }
  split; simpl; unfold assigned; rewrite ?Hasg, ?fmap_app; simpl.
  + rewrite length_insert. apply (inv_length _ _ _ _ HI).
  + intros q Hq. apply elem_of_app in Hq as [Hq|Hq].
    * by apply (inv_below _ _ _ _ HI).
    * apply list_elem_of_singleton in Hq. by subst.
  + apply NoDup_app. split; [apply (inv_nodup _ _ _ _ HI)|].
    split; [|apply NoDup_singleton].
    intros q Hq Hq'. apply list_elem_of_singleton in Hq'. by subst.
  + intros q vq Hq Hvq. apply elem_of_app in Hq as [Hq|Hq].
    * pose proof (inv_spent _ _ _ _ HI q vq Hq Hvq) as Hnil.
      rewrite HR in Hnil. by eapply passing_app_nil.
    * apply list_elem_of_singleton in Hq. subst q.
      rewrite Hv in Hvq. injection Hvq as <-.
      by rewrite passing_app, H1, H2.
  + intros q c' Hq. apply elem_of_app in Hq as [Hq|Hq].
    * rewrite list_lookup_insert_ne; [by apply (inv_entry _ _ _ _ HI)|].
      intros <-. apply Hfresh. unfold assigned.
      apply list_elem_of_fmap. by exists (p, c').
    * apply list_elem_of_singleton in Hq. injection Hq as -> ->.
      apply list_lookup_insert_eq. by rewrite (inv_length _ _ _ _ HI).
  + intros q c' vq Hq Hvq. apply elem_of_app in Hq as [Hq|Hq].
    * by eapply (inv_valid _ _ _ _ HI).
    * apply list_elem_of_singleton in Hq. injection Hq as -> ->.
      rewrite Hv in Hvq. by injection Hvq as <-.
  + rewrite (inv_perm _ _ _ _ HI), HR.
    rewrite <- !app_assoc. apply Permutation_app_head. simpl.
    rewrite (app_assoc R2). apply Permutation_cons_append.
- assert (Hasg : assignments (trace st ++ [Visit p (configs st)]) =
            assignments (trace st)).
  { by rewrite assignments_app, app_nil_r. }
  destruct HI. split; simpl; unfold assigned in *; rewrite ?Hasg; done.
Qed.

Lemma Inv_steps st evs st' :
steps tickets L st evs st' → Inv tickets L R0 st → Inv tickets L R0 st'.
Proof.
induction 1 as [|st p st1 evs1 evs2 st2 Hp Hs Ht _ IH]; [done|].
intros HI. eapply IH, Inv_scanPosition; eauto.
Qed.

End Invariant.

(** ** Elimination orders *)

Lemma satisfiesColumn_passing tickets p values R :
  columnValues tickets p = Done values →
  filter (fun c => satisfiesColumn tickets p c = true) R = passing values R.
Proof.
  intros Hv. unfold passing. apply list_filter_iff. intros c.
  unfold satisfiesColumn. by rewrite Hv.
Qed.

Lemma passing_one_split values R1 c R2 :
  isValidConfig values c = true →
  length (passing values (R1 ++ c :: R2)) = 1%nat →
  passing values R1 = [] ∧ passing values R2 = [].
Proof.
  intros Hc. rewrite passing_app, passing_cons_true by done.
  rewrite length_app. simpl. intros H.
  split; apply length_zero_iff_nil; lia.
Qed.

Lemma eliminable_Elim tickets L R order :
  eliminable tickets L R order = true → Elim tickets L R.
Proof.
  revert R. induction order as [|[p i] rest IH]; intros R H; simpl in H.
  - destruct R; [constructor|done].
  - apply andb_true_iff in H as [H Hrest].
    apply andb_true_iff in H as [H Hone].
    apply andb_true_iff in H as [Hp Hc].
    apply Nat.ltb_lt in Hp. apply Nat.eqb_eq in Hone.
    destruct (R !! i) as [c|] eqn:Hi; [|done].
    unfold satisfiesColumn in Hc.
    destruct (columnValues tickets p) as [values| |] eqn:Hv; [|done..].
    rewrite (satisfiesColumn_passing _ _ values) in Hone by done.
    rewrite delete_take_drop in Hrest.
    rewrite <- (take_drop_middle R i c Hi) in Hone |- *.
    destruct (passing_one_split _ _ _ _ Hc Hone) as [H1 H2].
    eapply Elim_step; eauto.
Qed.

Lemma passing_sublist_nil values (R R' : list Configuration) :
  R' `sublist_of` R → passing values R = [] → passing values R' = [].
Proof.
  induction 1 as [|c R' R _ IH|c R' R _ IH]; intros H; [done|..].
  - destruct (isValidConfig values c) eqn:E.
    + by rewrite passing_cons_true in H.
    + rewrite passing_cons_false in H |- * by done. auto.
  - apply IH. destruct (isValidConfig values c) eqn:E.
    + by rewrite passing_cons_true in H.
    + by rewrite passing_cons_false in H.
Qed.

(** Whatever has been eliminated so far, some position has a single
    surviving candidate as long as configurations remain. *)
Lemma Elim_progress tickets L R :
  Elim tickets L R →
  ∀ R', R' `sublist_of` R → R' ≠ [] →
  ∃ p values c, (p < L)%nat ∧ columnValues tickets p = Done values ∧
                passing values R' = [c].
Proof.
  induction 1 as [|p values R1 c R2 Hp Hv H1 Hc H2 _ IH]; intros R' Hsub Hne.
  - apply sublist_nil_r in Hsub. done.
  - apply sublist_app_r in Hsub as (k1 & k2 & -> & Hk1 & Hk2).
    apply sublist_cons_r in Hk2 as [Hk2|(k2' & -> & Hk2)].
    + apply IH; [|done]. by apply sublist_app.
    + exists p, values, c. split; [done|]. split; [done|].
      rewrite passing_app, passing_cons_true by done.
      rewrite (passing_sublist_nil values R1 k1) by done.
      by rewrite (passing_sublist_nil values R2 k2').
Qed.

(** ** Passes make progress and end *)

Lemma columnValues_wide L tickets p :
  wide L tickets → (p < L)%nat →
  ∃ values, columnValues tickets p = Done values.
Proof.
  intros Hw Hp. induction Hw as [|t ts Ht _ [values IH]]; simpl.
  - by exists [].
  - destruct (lookup_lt_is_Some_2 (Values t) p) as [v Hv]; [lia|].
    rewrite Hv, IH. simpl. eauto.
Qed.

Lemma scanPosition_done tickets p st values :
  columnValues tickets p = Done values →
  ∃ st1, scanPosition tickets p st = Done st1.
Proof.
  intros Hv. destruct (scanPosition_cases tickets p st values Hv)
    as [(R1 & c & R2 & _ & _ & _ & _ & Hs)|[_ Hs]]; eauto.
Qed.

Lemma passFrom_done L tickets ps st :
  wide L tickets → Forall (fun p => (p < L)%nat) ps →
  ∃ st', passFrom tickets ps st = Done st'.
Proof.
  intros Hw Hps. revert st. induction Hps as [|p ps Hp _ IH]; intros st; simpl.
  - eauto.
  - destruct (columnValues_wide L tickets p Hw Hp) as [values Hv].
    destruct (scanPosition_done tickets p st values Hv) as [st1 ->]. simpl.
    apply IH.
Qed.

Lemma passFrom_sublist tickets ps st st' :
  passFrom tickets ps st = Done st' → configs st' `sublist_of` configs st.
Proof.
  revert st. induction ps as [|p ps IH]; intros st H; simpl in H.
  - by injection H as <-.
  - destruct (scanPosition tickets p st) as [st1| |] eqn:Hs; [|done..].
    simpl in H. destruct (scanPosition_trace _ _ _ _ Hs) as (_ & _ & _ & Hsub & _).
    etrans; [by apply IH|done].
Qed.

(** A pass that meets a position with a single surviving candidate removes
    a configuration. *)
Lemma passFrom_progress tickets ps st st' p values :
  passFrom tickets ps st = Done st' →
  p ∈ ps → columnValues tickets p = Done values →
  length (passing values (configs st)) = 1%nat →
  (length (configs st') < length (configs st))%nat.
Proof.
  revert st. induction ps as [|q ps IH]; intros st H Hin Hv Hone.
  { by apply elem_of_nil in Hin. }
  simpl in H.
  destruct (scanPosition tickets q st) as [st1| |] eqn:Hs; [|done..].
  simpl in H. pose proof (passFrom_sublist _ _ _ _ H) as Hsub.
  apply sublist_length in Hsub.
  destruct (scanPosition_column _ _ _ _ Hs) as [vq Hvq].
  destruct (scanPosition_cases tickets q st vq Hvq)
    as [(R1 & c & R2 & HR & _ & _ & _ & Hs')|[Hn Hs']];
    rewrite Hs' in Hs; injection Hs as <-; simpl in *.
  - rewrite HR. rewrite !length_app in *. simpl. lia.
  - apply elem_of_cons in Hin as [->|Hin].
    + rewrite Hv in Hvq. injection Hvq as <-. done.
    + apply (IH _ H Hin Hv Hone).
Qed.

Lemma resolveLoop_terminates tickets L R0 :
  wide L tickets → Elim tickets L R0 →
  ∀ fuel st, configs st `sublist_of` R0 →
    (length (configs st) ≤ fuel)%nat →
    ∃ st', resolveLoop fuel tickets L st = Done st'.
Proof.
  intros Hw HE fuel. induction fuel as [|fuel IH]; intros st Hsub Hlen.
  - destruct (configs st) eqn:E; [|simpl in Hlen; lia].
    exists st. simpl. by rewrite E.
  - simpl. destruct (configs st) as [|c0 R] eqn:E; [eauto|].
    rewrite <- E in Hsub.
    destruct (Elim_progress _ _ _ HE (configs st) Hsub)
      as (p & values & c & HpL & Hv & Hone); [by rewrite E|].
    destruct (passFrom_done L tickets (seq 0 L) st Hw (seq_below L)) as [st1 Hp].
    unfold pass. rewrite Hp. simpl.
    assert (length (configs st1) < length (configs st))%nat as Hlt.
    { eapply passFrom_progress; eauto.
      - apply elem_of_seq. lia.
      - by rewrite Hone. }
    apply IH.
    + etrans; [by eapply passFrom_sublist|done].
    + rewrite E in Hlt. simpl in *. lia.
Qed.

Lemma resolveLoop_fuel_mono fuel tickets L st st' :
  resolveLoop fuel tickets L st = Done st' →
  ∀ fuel', (fuel ≤ fuel')%nat → resolveLoop fuel' tickets L st = Done st'.
Proof.
  revert st. induction fuel as [|fuel IH]; intros st H fuel' Hle; simpl in H.
  - destruct (configs st) eqn:E; [|done].
    destruct fuel'; simpl; by rewrite E.
  - destruct fuel' as [|fuel']; [lia|]. simpl.
    destruct (configs st) eqn:E; [done|].
    destruct (pass tickets L st) as [st1| |]; [|done..]. simpl in *.
    apply IH; [done|lia].
Qed.

(** ** The result of a complete run *)

Lemma fmap_lookup_seq (l : list string) :
  (fun p => default EmptyString (l !! p)) <$> seq 0 (length l) = l.
Proof.
  apply list_eq. intros i. rewrite list_lookup_fmap.
  destruct (decide (i < length l)%nat) as [Hi|Hi].
  - rewrite lookup_seq_lt by done. simpl.
    destruct (lookup_lt_is_Some_2 l i Hi) as [x Hx]. by rewrite Hx.
  - rewrite lookup_seq_ge by lia. simpl. symmetry. apply lookup_ge_None_2. lia.
Qed.

Lemma positions_full (l : list nat) (L : nat) :
  NoDup l → (∀ p, p ∈ l → (p < L)%nat) → length l = L → l ≡ₚ seq 0 L.
Proof.
  intros Hnd Hlt Hlen. apply submseteq_length_Permutation.
  - apply NoDup_submseteq; [done|]. intros p Hp. apply elem_of_seq.
    specialize (Hlt p Hp). lia.
  - rewrite length_seq. lia.
Qed.

Lemma Inv_final tickets L R0 st :
  Inv tickets L R0 st → configs st = [] → length R0 = L →
  orderedFields st ≡ₚ Field <$> R0.
Proof.
  intros HI Hnil HN.
  pose proof (inv_perm _ _ _ _ HI) as Hperm. rewrite Hnil in Hperm. simpl in Hperm.
  set (asg := assignments (trace st)) in *.
  assert (length asg = L) as Hlen.
  { rewrite <- HN, Hperm. by rewrite length_fmap. }
  assert (asg.*1 ≡ₚ seq 0 L) as Hpos.
  { apply positions_full.
    - apply (inv_nodup _ _ _ _ HI).
    - apply (inv_below _ _ _ _ HI).
    - by rewrite length_fmap. }
  rewrite <- (fmap_lookup_seq (orderedFields st)).
  rewrite (inv_length _ _ _ _ HI), <- Hpos, Hperm.
  rewrite <- !list_fmap_compose.
  apply eq_subrelation; [apply _|].
  apply Forall_fmap_ext, Forall_forall. intros [p c] Hin. simpl.
  by rewrite (inv_entry _ _ _ _ HI p c Hin).
Qed.

Lemma wide_same_length L tickets :
  Forall (fun t => length (Values t) = L) tickets → wide L tickets.
Proof. intros H. eapply Forall_impl; [done|]. intros t ->. done. Qed.

(** C2. For tickets that all have the [L] values of the first one, as many
    configurations as positions, and configurations that an elimination
    order exhausts, [getOrdering] returns, for any fuel of at least the
    number of configurations, a sequence of [L] names that is a permutation
    of the names of the configurations: every position holds one name; and
    when the names are distinct, each of them is at exactly one position. *)
Theorem getOrdering_total (tickets : list Ticket) (configs0 : list Configuration)
    (order : list (nat * nat)) (ticket0 : Ticket) :
  tickets !! 0%nat = Some ticket0 →
  Forall (fun t => length (Values t) = length (Values ticket0)) tickets →
  length configs0 = length (Values ticket0) →
  eliminable tickets (length (Values ticket0)) configs0 order = true →
  ∃ fields,
    (∀ fuel, (length configs0 ≤ fuel)%nat →
             getOrdering fuel tickets configs0 = Done fields)
    ∧ length fields = length (Values ticket0)
    ∧ (∀ p, (p < length (Values ticket0))%nat →
            ∃ c, c ∈ configs0 ∧ fields !! p = Some (Field c))
    ∧ fields ≡ₚ Field <$> configs0
    ∧ (NoDup (Field <$> configs0) →
       ∀ c, c ∈ configs0 →
            ∃ p, fields !! p = Some (Field c) ∧
                 ∀ q, fields !! q = Some (Field c) → q = p).
Proof.
  intros H0 Hsame HN Hord. set (L := length (Values ticket0)) in *.
  pose proof (wide_same_length _ _ Hsame) as Hw.
  pose proof (eliminable_Elim _ _ _ _ Hord) as HE.
  destruct (resolveLoop_terminates tickets L configs0 Hw HE
              (length configs0) (resolver_init L configs0))
    as [st' Hrun]; [done..|].
  destruct (resolveLoop_steps _ _ _ _ _ Hrun) as (evs & Hsteps & Hnil).
  pose proof (Inv_steps _ _ _ _ _ _ Hsteps (Inv_init tickets L configs0)) as HI.
  pose proof (Inv_final _ _ _ _ HI Hnil HN) as Hperm.
  exists (orderedFields st'). split; [|split; [|split; [|split]]].
  - intros fuel Hfuel. unfold getOrdering, getOrdering_run, firstTicket.
    rewrite H0. simpl. fold L.
    by rewrite (resolveLoop_fuel_mono _ _ _ _ _ Hrun fuel Hfuel).
  - apply (inv_length _ _ _ _ HI).
  - intros p Hp.
    destruct (lookup_lt_is_Some_2 (orderedFields st') p) as [x Hx].
    { by rewrite (inv_length _ _ _ _ HI). }
    assert (x ∈ Field <$> configs0) as Hin.
    { rewrite <- Hperm. by eapply list_elem_of_lookup_2. }
    apply list_elem_of_fmap in Hin as (c & -> & Hc). eauto.
  - done.
  - intros Hnd c Hc.
    assert (Field c ∈ orderedFields st') as Hin.
    { rewrite Hperm. by apply list_elem_of_fmap_2. }
    apply list_elem_of_lookup in Hin as [p Hp]. exists p. split; [done|].
    intros q Hq. rewrite <- Hperm in Hnd.
    by eapply NoDup_lookup.
Qed.

(** ** One iteration of the position loop *)

(** C4. At a position whose column is read without panic: when a second
    passing configuration is met the scan is left there, having tested no
    configuration behind it, whatever follows; with fewer than two passing
    configurations all are tested; and the iteration writes
    [orderedFields[fieldPos]] (and removes a configuration) when exactly one
    remaining configuration passes, and changes nothing otherwise. *)
Theorem scan_short_circuit (tickets : list Ticket) (fieldPos : nat)
    (st : resolver) (values : list Z) :
  columnValues tickets fieldPos = Done values →
  let s := scanConfigs values (configs st) 0 scan_init in
  (∀ R1 c1 R2 c2 R3,
      configs st = R1 ++ c1 :: R2 ++ c2 :: R3 →
      passing values R1 = [] → isValidConfig values c1 = true →
      passing values R2 = [] → isValidConfig values c2 = true →
      tested s = length (R1 ++ c1 :: R2 ++ [c2]) ∧
      validConfigCount s = 2 ∧ validConfig s = c2)
  ∧ ((length (passing values (configs st)) < 2)%nat →
     tested s = length (configs st))
  ∧ ∃ st', scanPosition tickets fieldPos st = Done st' ∧
      ((∃ c i, passing values (configs st) = [c] ∧
               configs st !! i = Some c ∧
               configs st' = delete i (configs st) ∧
               orderedFields st' = <[fieldPos := Field c]> (orderedFields st) ∧
               trace st' = trace st ++ [Visit fieldPos (configs st);
                                        Assign fieldPos i c])
       ∨ (length (passing values (configs st)) ≠ 1%nat ∧
          configs st' = configs st ∧
          orderedFields st' = orderedFields st ∧
          trace st' = trace st ++ [Visit fieldPos (configs st)])).
Proof.
  intros Hv s. split; [|split].
  - intros R1 c1 R2 c2 R3 HR H1 Hc1 H2 Hc2. subst s.
    rewrite HR, scanConfigs_two by done. simpl.
    split; [|done]. rewrite length_app. simpl. rewrite length_app. simpl. lia.
  - intros Hlt. subst s.
    destruct (scanConfigs_cases values (configs st))
      as [[H ->]|[(R1 & c & R2 & HR & H1 & Hc & H2 & ->)
                 |(R1 & c1 & R2 & c2 & R3 & HR & H1 & Hc1 & H2 & Hc2 & _)]];
      [done..|].
    rewrite HR, passing_length_two in Hlt by done. simpl in Hlt. lia.
  - destruct (scanPosition_cases tickets fieldPos st values Hv)
      as [(R1 & c & R2 & HR & H1 & Hc & H2 & ->)|[Hn ->]];
      eexists; (split; [done|]); simpl.
    + left. exists c, (length R1). rewrite HR.
      rewrite passing_length_one, delete_middle by done.
      split; [done|]. split; [|done]. by apply list_lookup_middle.
    + right. done.
Qed.

Lemma passing_not_elem values (R : list Configuration) c :
  passing values R = [] → isValidConfig values c = true → c ∉ R.
Proof.
  intros Hnil Hc Hin.
  assert (c ∈ passing values R) as H.
  { unfold passing. by apply list_elem_of_filter. }
  rewrite Hnil in H. by apply elem_of_nil in H.
Qed.

Lemma sublist_not_elem (R R' : list Configuration) c :
  R' `sublist_of` R → c ∉ R → c ∉ R'.
Proof. intros Hsub Hc Hin. apply Hc. by eapply sublist_subseteq. Qed.

(** An iteration of the position loop first records its visit. *)
Lemma scanPosition_head tickets p st st1 :
  scanPosition tickets p st = Done st1 →
  ∃ evs, trace st1 = trace st ++ Visit p (configs st) :: evs.
Proof.
  intros H. destruct (scanPosition_column _ _ _ _ H) as [values Hv].
  destruct (scanPosition_cases tickets p st values Hv)
    as [(R1 & c & R2 & _ & _ & _ & _ & Hs)|[_ Hs]];
    rewrite Hs in H; injection H as <-; simpl; eauto.
Qed.

(** The events of a pass: one visit for each position, in order, each
    against a sub-sequence of the configurations the pass started with. *)
Lemma passFrom_trace tickets ps st st' :
  passFrom tickets ps st = Done st' →
  ∃ evs, trace st' = trace st ++ evs ∧
         (∀ q R, (q, R) ∈ visits evs → R `sublist_of` configs st) ∧
         visited evs = ps.
Proof.
  intros Hrun.
  destruct (passFrom_steps tickets (S (list_max ps)) ps st st')
    as (evs & Hsteps & Hvis); [|done|].
  { apply Forall_forall. intros x Hx.
    pose proof (list_max_le ps (list_max ps)) as [Hle _].
    specialize (Hle (Nat.le_refl _)).
    rewrite List.Forall_forall in Hle.
    apply list_elem_of_In in Hx. specialize (Hle x Hx). lia. }
  exists evs. split; [by eapply steps_trace|]. split; [|done].
  by apply steps_sublist in Hsteps as (_ & _ & H).
Qed.

(** The split of a list at its first passing configuration is unique. *)
Lemma passing_split_unique values (R1 : list Configuration) c R2 R1' c' R2' :
  R1 ++ c :: R2 = R1' ++ c' :: R2' →
  passing values R1 = [] → isValidConfig values c = true →
  passing values R1' = [] → isValidConfig values c' = true →
  R1 = R1' ∧ c = c' ∧ R2 = R2'.
Proof.
  revert R1'. induction R1 as [|a R1 IH]; intros [|a' R1'] HR H1 Hc H1' Hc';
    simpl in HR; injection HR as Ha HR.
  - done.
  - subst a'. by rewrite passing_cons_true in H1'.
  - subst a. by rewrite passing_cons_true in H1.
  - subst a'. destruct (isValidConfig values a) eqn:E.
    + by rewrite passing_cons_true in H1.
    + rewrite passing_cons_false in H1, H1' by done.
      destruct (IH R1' HR H1 Hc H1' Hc') as (-> & ? & ?). done.
Qed.

(** C5. When the configuration [c] is the only remaining one that passes at
    [fieldPos], the iteration writes its name at [fieldPos] and removes it
    at once: the rest of the pass runs from the state with the reduced set,
    the next position scanned is tested against exactly that set, and no
    later position of the pass is tested against a set that holds [c]. *)
Theorem unique_candidate_removed_at_once (tickets : list Ticket)
    (fieldPos : nat) (st : resolver) (values : list Z)
    (R1 : list Configuration) (c : Configuration) (R2 : list Configuration) :
  columnValues tickets fieldPos = Done values →
  configs st = R1 ++ c :: R2 →
  passing values R1 = [] → isValidConfig values c = true →
  passing values R2 = [] →
  ∃ st1,
    scanPosition tickets fieldPos st = Done st1
    ∧ configs st1 = R1 ++ R2
    ∧ orderedFields st1 = <[fieldPos := Field c]> (orderedFields st)
    ∧ (∀ rest, passFrom tickets (fieldPos :: rest) st = passFrom tickets rest st1)
    ∧ (∀ q rest st', passFrom tickets (fieldPos :: q :: rest) st = Done st' →
         ∃ evs, trace st' =
                trace st ++ Visit fieldPos (R1 ++ c :: R2)
                         :: Assign fieldPos (length R1) c
                         :: Visit q (R1 ++ R2) :: evs)
    ∧ (∀ rest st', passFrom tickets (fieldPos :: rest) st = Done st' →
         ∃ evs, trace st' =
                trace st ++ Visit fieldPos (R1 ++ c :: R2)
                         :: Assign fieldPos (length R1) c :: evs
                ∧ ∀ q R, (q, R) ∈ visits evs →
                         R `sublist_of` R1 ++ R2 ∧ c ∉ R).
Proof.
  intros Hv HR H1 Hc H2.
  destruct (scanPosition_cases tickets fieldPos st values Hv)
    as [(R1' & c' & R2' & HR' & H1' & Hc' & H2' & Hs)|[Hn Hs]].
  2: { rewrite HR, passing_length_one in Hn by done. done. }
  rewrite HR in HR'.
  destruct (passing_split_unique _ _ _ _ _ _ _ HR' H1 Hc H1' Hc')
    as (<- & <- & <-).
  match type of Hs with _ = Done ?s => remember s as st1 eqn:Est1 end.
  assert (configs st1 = R1 ++ R2) as Hc1 by (by subst st1).
  assert (trace st1 = trace st ++ [Visit fieldPos (R1 ++ c :: R2);
                                   Assign fieldPos (length R1) c]) as Ht1.
  { subst st1. simpl. by rewrite HR. }
  exists st1. split; [exact Hs|]. split; [done|]. split; [by subst st1|].
  assert (c ∉ R1 ++ R2) as Hfresh.
  { intros Hin. apply elem_of_app in Hin as [Hin|Hin].
    - by apply (passing_not_elem values R1 c H1 Hc).
    - by apply (passing_not_elem values R2 c H2 Hc). }
  split; [|split].
  - intros rest. simpl. by rewrite Hs.
  - intros q rest st' Hrun. simpl in Hrun. rewrite Hs in Hrun. simpl in Hrun.
    destruct (scanPosition tickets q st1) as [st2| |] eqn:Hq; [|done..].
    simpl in Hrun.
    destruct (scanPosition_head _ _ _ _ Hq) as (e2 & He2).
    destruct (passFrom_trace _ _ _ _ Hrun) as (evs & Hevs & _).
    exists (e2 ++ evs). rewrite Hevs, He2, Ht1, Hc1.
    rewrite <- !app_assoc. done.
  - intros rest st' Hrun. simpl in Hrun. rewrite Hs in Hrun. simpl in Hrun.
    destruct (passFrom_trace _ _ _ _ Hrun) as (evs & Hevs & Hvis & _).
    exists evs. split.
    + rewrite Hevs, Ht1, <- app_assoc. done.
    + intros q R Hin. specialize (Hvis q R Hin). rewrite Hc1 in Hvis.
      split; [done|]. by eapply sublist_not_elem.
Qed.

(** ** Positions that already have a name *)

Example getOrdering_abc :
  getOrdering 3 tickets_abc configs_abc = Done ["c"; "b"; "a"]%string.
Proof. reflexivity. Qed.

(** In the run on [tickets_abc] and [configs_abc] the second pass enters the
    loop body for position 2, which the first pass has assigned, and tests
    the remaining configuration [c] there. *)
Lemma assigned_position_is_visited_again :
  ¬ (∀ st, getOrdering_run 3 tickets_abc configs_abc = Done st →
           visits_unassigned_only (trace st)).
Proof.
  intros H.
  destruct (getOrdering_run 3 tickets_abc configs_abc) as [st| |] eqn:E;
    vm_compute in E; [|discriminate E..].
  specialize (H st eq_refl). injection E as E.
  apply (H (take 7 (trace st)) 2%nat [mkConfiguration "c" [mkValidRange 1 1]]
           (drop 8 (trace st))).
  - rewrite <- E. vm_compute. reflexivity.
  - rewrite <- E. vm_compute. left.
Qed.

Lemma passFrom_app tickets ps qs st :
  passFrom tickets (ps ++ qs) st =
  bind (passFrom tickets ps st) (passFrom tickets qs).
Proof.
  revert st. induction ps as [|p ps IH]; intros st; simpl; [done|].
  destruct (scanPosition tickets p st); simpl; [apply IH|done..].
Qed.

(** A complete run is a sequence of full passes. *)
Lemma resolveLoop_passes fuel tickets L st st' :
  resolveLoop fuel tickets L st = Done st' →
  ∃ n, passFrom tickets (concat (replicate n (seq 0 L))) st = Done st'.
Proof.
  revert st. induction fuel as [|fuel IH]; intros st H; simpl in H.
  - destruct (configs st); [|done]. by exists 0%nat.
  - destruct (configs st); [by exists 0%nat|].
    destruct (pass tickets L st) as [st1| |] eqn:Hp; [|done..]. simpl in H.
    destruct (IH st1 H) as [n Hn]. exists (S n). simpl.
    rewrite passFrom_app. unfold pass in Hp. by rewrite Hp.
Qed.

Lemma assignments_prefix tr evs p c :
  (p, c) ∈ assignments tr → (p, c) ∈ assignments (tr ++ evs).
Proof. rewrite assignments_app. intros H. apply elem_of_app. by left. Qed.

(** C3 (as the code has it). The position loop runs over the positions it
    is given whether they have a name or not, and a pass runs over all of
    [0 .. L-1]. Still, in a run from the initial state no position is
    assigned twice: an entry of [orderedFields] that has been written holds
    the same name after any further positions are scanned, and at the end
    of the run. *)
Theorem assigned_entry_never_changed (tickets : list Ticket) (L : nat)
    (configs0 : list Configuration) (ps ps' : list nat) (st st' : resolver) :
  Forall (fun p => (p < L)%nat) ps → Forall (fun p => (p < L)%nat) ps' →
  passFrom tickets ps (resolver_init L configs0) = Done st →
  passFrom tickets ps' st = Done st' →
  visited (trace st) = ps
  ∧ (∀ st2, pass tickets L st = Done st2 →
            ∃ evs, trace st2 = trace st ++ evs ∧ visited evs = seq 0 L)
  ∧ NoDup (assigned (trace st'))
  ∧ (∀ p c, (p, c) ∈ assignments (trace st) →
       orderedFields st !! p = Some (Field c)
       ∧ orderedFields st' !! p = Some (Field c)
       ∧ ∀ fuel st_end, resolveLoop fuel tickets L st' = Done st_end →
                        orderedFields st_end !! p = Some (Field c)).
Proof.
  intros Hps Hps' Hrun Hrun'.
  destruct (passFrom_steps _ L _ _ _ Hps Hrun) as (evs & Hsteps & Hvis).
  destruct (passFrom_steps _ L _ _ _ Hps' Hrun') as (evs' & Hsteps' & _).
  pose proof (Inv_steps _ _ _ _ _ _ Hsteps (Inv_init tickets L configs0)) as HI.
  pose proof (Inv_steps _ _ _ _ _ _ Hsteps' HI) as HI'.
  split; [|split; [|split]].
  - apply steps_trace in Hsteps. by rewrite Hsteps.
  - intros st2 Hp. destruct (pass_steps _ _ _ _ Hp) as (evs2 & H2 & Hv2).
    exists evs2. split; [by eapply steps_trace|done].
  - apply (inv_nodup _ _ _ _ HI').
  - intros p c Hin. split; [by apply (inv_entry _ _ _ _ HI)|].
    apply steps_trace in Hsteps' as Ht'.
    split.
    + apply (inv_entry _ _ _ _ HI'). rewrite Ht'. by apply assignments_prefix.
    + intros fuel st_end Hend.
      destruct (resolveLoop_steps _ _ _ _ _ Hend) as (evs3 & Hsteps3 & _).
      pose proof (Inv_steps _ _ _ _ _ _ Hsteps3 HI') as HI3.
      apply (inv_entry _ _ _ _ HI3).
      rewrite (steps_trace _ _ _ _ _ Hsteps3), Ht'.
      by do 2 apply assignments_prefix.
Qed.

(** ** Passes that resolve nothing *)

Lemma passFrom_same_stuck tickets ps st st' :
  passFrom tickets ps st = Done st' →
  length (configs st') = length (configs st) →
  stuck tickets ps (configs st).
Proof.
  revert st. induction ps as [|q ps IH]; intros st H Hlen p Hin.
  { by apply elem_of_nil in Hin. }
  simpl in H.
  destruct (scanPosition tickets q st) as [st1| |] eqn:Hs; [|done..].
  simpl in H. pose proof (passFrom_sublist _ _ _ _ H) as Hsub.
  apply sublist_length in Hsub.
  destruct (scanPosition_column _ _ _ _ Hs) as [vq Hvq].
  destruct (scanPosition_cases tickets q st vq Hvq)
    as [(R1 & c & R2 & HR & _ & _ & _ & Hs')|[Hn Hs']];
    rewrite Hs' in Hs; injection Hs as <-; simpl in *.
  - rewrite HR in Hlen. rewrite !length_app in *. simpl in *. lia.
  - apply elem_of_cons in Hin as [->|Hin]; [eauto|].
    by apply (IH _ H Hlen).
Qed.

Lemma passFrom_stuck tickets ps st :
  stuck tickets ps (configs st) →
  ∃ st', passFrom tickets ps st = Done st' ∧ configs st' = configs st ∧
         orderedFields st' = orderedFields st.
Proof.
  revert st. induction ps as [|q ps IH]; intros st Hstuck; simpl; [eauto|].
  destruct (Hstuck q) as (vq & Hvq & Hn); [by left|].
  destruct (scanPosition_cases tickets q st vq Hvq)
    as [(R1 & c & R2 & HR & H1 & Hc & H2 & Hs')|[_ ->]].
  { rewrite HR, passing_length_one in Hn by done. done. }
  simpl. match goal with |- ∃ _, passFrom _ _ ?s = _ ∧ _ =>
    destruct (IH s) as (st' & Hrun & Hc' & Ho') end.
  { simpl. intros p Hp. apply Hstuck. by right. }
  exists st'. done.
Qed.

Lemma resolveLoop_stuck tickets L R :
  R ≠ [] → stuck tickets (seq 0 L) R →
  ∀ fuel st, configs st = R → resolveLoop fuel tickets L st = Timeout.
Proof.
  intros Hne Hstuck fuel. induction fuel as [|fuel IH]; intros st HR; simpl.
  - rewrite HR. by destruct R.
  - rewrite HR. destruct R as [|c0 R']; [done|].
    destruct (passFrom_stuck tickets (seq 0 L) st) as (st' & Hrun & Hc' & _).
    { by rewrite HR. }
    unfold pass. rewrite Hrun. simpl. apply IH. congruence.
Qed.

(** Every removal of a run is a stage of an elimination order. *)
Lemma steps_eliminable tickets L st evs st' :
  steps tickets L st evs st' →
  ∀ rest, eliminable tickets L (configs st') rest = true →
          eliminable tickets L (configs st) (eliminations evs ++ rest) = true.
Proof.
  induction 1 as [|st p st1 evs1 evs2 st2 Hp Hs Ht _ IH]; intros rest Hrest;
    [done|].
  specialize (IH rest Hrest). rewrite eliminations_app, <- app_assoc.
  destruct (scanPosition_column _ _ _ _ Hs) as [values Hv].
  destruct (scanPosition_cases tickets p st values Hv)
    as [(R1 & c & R2 & HR & H1 & Hc & H2 & Hs')|[Hn Hs']];
    rewrite Hs' in Hs; injection Hs as <-; simpl in *;
    apply app_inv_head in Ht as <-; simpl; [|done].
  rewrite HR, list_lookup_middle by done.
  rewrite delete_middle, IH.
  rewrite (satisfiesColumn_passing _ _ values) by done.
  rewrite passing_length_one by done.
  unfold satisfiesColumn. rewrite Hv, Hc. simpl.
  rewrite !andb_true_r. by apply Nat.ltb_lt.
Qed.

(** C6. From a state with configurations left, if a full pass completes
    and leaves the remaining configurations as they were, then no position
    has exactly one passing configuration and the loop does not return,
    whatever the fuel. And whenever the loop does return from the initial
    state, its removals form an elimination order of the configurations. *)
Theorem stuck_pass_loops_forever (tickets : list Ticket) (L : nat) :
  (∀ st st1, configs st ≠ [] →
      pass tickets L st = Done st1 →
      configs st1 = configs st →
      (∀ p, (p < L)%nat →
            ∃ values, columnValues tickets p = Done values ∧
                      length (passing values (configs st)) ≠ 1%nat)
      ∧ ∀ fuel, resolveLoop fuel tickets L st = Timeout)
  ∧ (∀ fuel configs0 st',
      resolveLoop fuel tickets L (resolver_init L configs0) = Done st' →
      eliminable tickets L configs0 (eliminations (trace st')) = true).
Proof.
  split.
  - intros st st1 Hne Hp Hsame.
    assert (stuck tickets (seq 0 L) (configs st)) as Hstuck.
    { eapply passFrom_same_stuck; [exact Hp|by rewrite Hsame]. }
    split.
    + intros p HpL. apply Hstuck, elem_of_seq. lia.
    + intros fuel. by eapply resolveLoop_stuck.
  - intros fuel configs0 st' Hrun.
    destruct (resolveLoop_steps _ _ _ _ _ Hrun) as (evs & Hsteps & Hnil).
    pose proof (steps_eliminable _ _ _ _ _ Hsteps []) as H.
    rewrite Hnil, app_nil_r in H. specialize (H eq_refl).
    apply steps_trace in Hsteps. simpl in Hsteps. by rewrite Hsteps.
Qed.

(** ** The first ticket *)

(** C10. [getOrdering] panics on an empty ticket list, whatever the fuel
    and the configurations. On a non-empty list the read of [tickets[0]]
    succeeds and the run is the loop on as many positions as the first
    ticket has values; with no configuration it returns that many empty
    names. *)
Theorem getOrdering_needs_a_ticket :
  (∀ fuel configs0, getOrdering fuel [] configs0 = Panic)
  ∧ (∀ tickets, tickets ≠ [] →
       ∃ ticket0, tickets !! 0%nat = Some ticket0 ∧
         firstTicket tickets = Done ticket0 ∧
         (∀ fuel configs0,
            getOrdering_run fuel tickets configs0 =
            resolveLoop fuel tickets (length (Values ticket0))
              (resolver_init (length (Values ticket0)) configs0)) ∧
         (∀ fuel, getOrdering fuel tickets [] =
                  Done (replicate (length (Values ticket0)) EmptyString))).
Proof.
  split; [done|].
  intros [|ticket0 rest] Hne; [done|].
  exists ticket0. split; [done|]. split; [done|]. split; [done|].
  intros [|fuel]; reflexivity.
Qed.

(** ** The parsers and the driver on samples *)

Example parseConfiguration_class :
  parseConfiguration "class: 1-3 or 5-7" =
  Done (mkConfiguration "class" [mkValidRange 1 3; mkValidRange 5 7]).
Proof. reflexivity. Qed.

Example parseConfiguration_no_colon : parseConfiguration "class 1-3" = Panic.
Proof. reflexivity. Qed.

Example parseTicket_sample : parseTicket "7,3,47" = mkTicket [7; 3; 47].
Proof. reflexivity. Qed.

Example main_sample1 : Main.main 5 sample1 = ([71; 1], Done tt).
Proof. vm_compute. reflexivity. Qed.

Example main_sample2 : Main.main 5 sample2 = ([0; 156], Done tt).
Proof. vm_compute. reflexivity. Qed.

(** ** The reading loop *)

Lemma only_cons sec m line entries :
  only sec ((m, line) :: entries) =
  if decide (m = sec) then line :: only sec entries else only sec entries.
Proof.
  unfold only. rewrite filter_cons. simpl. by destruct (decide (m = sec)).
Qed.

Lemma isValidTicket_snd_valid t cfgs :
  fst (isValidTicket t cfgs) = true → snd (isValidTicket t cfgs) = [].
Proof.
  intros Hv. rewrite isValidTicket_snd. apply uncovered_nil_iff.
  by apply isValidTicket_fst.
Qed.

Lemma default_last_cons {A} (a b x : A) (l : list A) :
  default a (last (x :: l)) = default b (last (x :: l)).
Proof.
  revert x. induction l as [|y l IH]; intros x; [done|].
  rewrite !last_cons_cons. apply IH.
Qed.

(** What the reading loop computes, section by section. *)
Lemma readLines_spec lines : ∀ m st0 cs,
  flags st0 = sectionFlags m →
  parseConfigurations (only Constraints (sectionLines m lines)) = Done cs →
  ∃ st, Main.readLines lines st0 = Done st
    ∧ Main.configs st = Main.configs st0 ++ cs
    ∧ (m ≠ Constraints → cs = [])
    ∧ Main.validNearbyTickets st =
        Main.validNearbyTickets st0 ++
        flat_map (recordsOf (Main.configs st)) (sectionLines m lines)
    ∧ Main.invalidValues st =
        Main.invalidValues st0 ++
        flat_map (rejectsOf (Main.configs st)) (sectionLines m lines)
    ∧ Main.myTicket st = ownTicket (sectionLines m lines) (Main.myTicket st0).
Proof.
  induction lines as [|line rest IH]; intros m st0 cs Hfl Hcs.
  { simpl in *. injection Hcs as <-. exists st0.
    rewrite !app_nil_r. repeat split; done. }
  simpl in Hcs |- *. unfold Main.processLine. fold (isBlank line).
  destruct (isBlank line) eqn:Eb; simpl.
  { apply IH; done. }
  destruct (Go.HasPrefix line Main.YourTicket) eqn:Ey; simpl.
  { destruct (IH OwnTicket (Main.setFlags false true false st0) cs eq_refl Hcs)
      as (st & Hrun & Hc & Hnil & Hv & Hi & Hm).
    exists st. split; [done|]. split; [done|]. split; [|done].
    intros _. by apply Hnil. }
  destruct (Go.HasPrefix line Main.NearbyTickets) eqn:En; simpl.
  { destruct (IH Nearby (Main.setFlags false false true st0) cs eq_refl Hcs)
      as (st & Hrun & Hc & Hnil & Hv & Hi & Hm).
    exists st. split; [done|]. split; [done|]. split; [|done].
    intros _. by apply Hnil. }
  rewrite only_cons in Hcs. unfold ownTicket. rewrite !only_cons.
  unfold flags in Hfl.
  destruct m; simpl in Hfl; injection Hfl as Hf1 Hf2 Hf3;
    rewrite ?Hf1, ?Hf2, ?Hf3; simpl in Hcs |- *.
  - (* a constraint line *)
    destruct (parseConfiguration line) as [c| |] eqn:Ec; [|done..].
    simpl in Hcs |- *.
    destruct (parseConfigurations (only Constraints (sectionLines Constraints rest)))
      as [cs'| |] eqn:Ecs'; [|done..].
    simpl in Hcs. injection Hcs as <-.
    match goal with |- ∃ _, Main.readLines _ ?s = _ ∧ _ =>
      destruct (IH Constraints s cs') as (st & Hrun & Hc & _ & Hv & Hi & Hm)
    end; [done|done|].
    simpl in *. exists st. split; [done|].
    split; [by rewrite Hc, <- app_assoc|]. split; [done|].
    unfold recordsOf at 1, rejectsOf at 1. simpl. done.
  - (* a line of the own-ticket section *)
    match goal with |- ∃ _, Main.readLines _ ?s = _ ∧ _ =>
      destruct (IH OwnTicket s cs) as (st & Hrun & Hc & Hnil & Hv & Hi & Hm)
    end; [done|done|].
    simpl in *. exists st. split; [done|]. split; [done|]. split; [done|].
    unfold recordsOf at 1, rejectsOf at 1. simpl.
    split; [by rewrite Hv, <- app_assoc|]. split; [done|].
    rewrite Hm. unfold ownTicket.
    destruct (only OwnTicket (sectionLines OwnTicket rest)) as [|l ls]; [done|].
    rewrite !fmap_cons, last_cons_cons. apply default_last_cons.
  - (* a line of the nearby section *)
    destruct (isValidTicket (parseTicket line) (Main.configs st0))
      as [valid invalids] eqn:Ev.
    destruct valid; simpl.
    + match goal with |- ∃ _, Main.readLines _ ?s = _ ∧ _ =>
        destruct (IH Nearby s cs) as (st & Hrun & Hc & Hnil & Hv & Hi & Hm)
      end; [done|done|].
      simpl in *. exists st. split; [done|]. split; [done|]. split; [done|].
      assert (Main.configs st = Main.configs st0) as Hsame.
      { rewrite Hc, Hnil by done. by rewrite app_nil_r. }
      unfold recordsOf at 1, rejectsOf at 1. simpl. rewrite Hsame in *.
      rewrite Ev. simpl.
      pose proof (isValidTicket_snd_valid (parseTicket line) (Main.configs st0)) as Hs.
      rewrite Ev in Hs. simpl in Hs. rewrite (Hs eq_refl).
      split; [by rewrite Hv, <- app_assoc|]. done.
    + match goal with |- ∃ _, Main.readLines _ ?s = _ ∧ _ =>
        destruct (IH Nearby s cs) as (st & Hrun & Hc & Hnil & Hv & Hi & Hm)
      end; [done|done|].
      simpl in *. exists st. split; [done|]. split; [done|]. split; [done|].
      assert (Main.configs st = Main.configs st0) as Hsame.
      { rewrite Hc, Hnil by done. by rewrite app_nil_r. }
      unfold recordsOf at 1, rejectsOf at 1. simpl. rewrite Hsame in *.
      rewrite Ev. simpl.
      split; [done|]. split; [by rewrite Hi, <- app_assoc|]. done.
Qed.

(** ** Sums and products of Go [int]s *)

Lemma wrap_in_range z : GoInt.in_range z → GoInt.wrap z = z.
Proof.
  unfold GoInt.in_range, GoInt.wrap, GoInt.min_int, GoInt.max_int.
  intros H. rewrite Z.mod_small; lia.
Qed.

Lemma wrap_shift z q : GoInt.wrap (z + q * 2 ^ 64) = GoInt.wrap z.
Proof.
  unfold GoInt.wrap.
  replace (z + q * 2 ^ 64 + 2 ^ 63) with (z + 2 ^ 63 + q * 2 ^ 64) by lia.
  by rewrite Z_mod_plus_full.
Qed.

Lemma wrap_cong z : ∃ q, GoInt.wrap z = z + q * 2 ^ 64.
Proof.
  unfold GoInt.wrap. exists (- ((z + 2 ^ 63) / 2 ^ 64)).
  pose proof (Z.div_mod (z + 2 ^ 63) (2 ^ 64)) as H. lia.
Qed.

Lemma wrap_wrap_add a v : GoInt.wrap (GoInt.wrap a + v) = GoInt.wrap (a + v).
Proof.
  destruct (wrap_cong a) as [q ->].
  replace (a + q * 2 ^ 64 + v) with (a + v + q * 2 ^ 64) by lia.
  apply wrap_shift.
Qed.


Lemma fold_add_wrap values a :
  fold_left (fun sum value => GoInt.add sum value) values (GoInt.wrap a) =
  GoInt.wrap (a + total values).
Proof.
  revert a. induction values as [|v values IH]; intros a; simpl.
  - by rewrite Z.add_0_r.
  - unfold GoInt.add at 2. rewrite wrap_wrap_add, IH. f_equal. lia.
Qed.


Lemma sumValues_wrap values :
  Main.sumValues values = GoInt.wrap (total values).
Proof.
  unfold Main.sumValues. change 0 with (GoInt.wrap 0) at 1.
  by rewrite fold_add_wrap.
Qed.

(** ** The first output *)

Lemma rejects_uncovered cfgs entries :
  flat_map (rejectsOf cfgs) entries =
  flat_map (fun t => uncovered cfgs (Values t))
    (filter (fun t => ¬ Forall (covered cfgs) (Values t))
       (parseTicket <$> only Nearby entries)).
Proof.
  induction entries as [|[m line] entries IH]; [done|].
  rewrite only_cons. cbn [flat_map]. rewrite IH.
  destruct m; unfold rejectsOf at 1; cbn [fst snd];
    [by rewrite decide_False by done..|].
  rewrite decide_True by done.
  rewrite isValidTicket_snd, fmap_cons, filter_cons.
  destruct (decide _) as [Hn|Hn]; [done|].
  assert (Forall (covered cfgs) (Values (parseTicket line))) as HF.
  { destruct (decide (Forall (covered cfgs) (Values (parseTicket line))));
      [done|tauto]. }
  apply uncovered_nil_iff in HF. by rewrite HF.
Qed.

(** C7. When the constraint lines parse, the first integer that [main]
    prints is the sum, in Go [int] arithmetic, of the uncovered values of
    the invalid records of the nearby-tickets section, in input order: the
    mathematical sum wrapped to 64 bits, hence that sum itself whenever it
    is an [int]. It is printed whatever part 2 does afterwards. *)
Theorem first_output_is_invalid_sum (fuel : nat) (lines : list string)
    (cfgs : list Configuration) :
  parseConfigurations (sectionOf Constraints lines) = Done cfgs →
  let nearby := parseTicket <$> sectionOf Nearby lines in
  let invalid :=
    filter (fun t => ¬ Forall (covered cfgs) (Values t)) nearby in
  let values := flat_map (fun t => uncovered cfgs (Values t)) invalid in
  ∃ sum rest,
    fst (Main.main fuel lines) = sum :: rest
    ∧ sum = Main.sumValues values
    ∧ sum = GoInt.wrap (total values)
    ∧ (GoInt.in_range (total values) → sum = total values).
Proof.
  intros Hcfg nearby invalid values.
  destruct (readLines_spec lines Constraints Main.state_init cfgs eq_refl Hcfg)
    as (st & Hrun & Hc & _ & _ & Hi & _).
  simpl in Hc, Hi. rewrite Hc, rejects_uncovered in Hi.
  fold (sectionOf Nearby lines) in Hi. fold nearby invalid values in Hi.
  exists (Main.sumValues values).
  unfold Main.main. rewrite Hrun, Hi.
  destruct (Main.part2 fuel st); simpl; eexists; (split; [done|]);
    (split; [done|]); rewrite sumValues_wrap; (split; [done|]);
    intros Hr; by apply wrap_in_range.
Qed.

(** On [sample_sum_overflow] the uncovered values of the invalid records
    add up to 2^64 + 3, which is no [int]: the accumulator of [sum += value]
    wraps around twice and [main] prints 3. *)
Example main_sum_overflow :
  Main.main 2 sample_sum_overflow = ([3; 1], Done tt)
  ∧ total [9223372036854775807; 9223372036854775807; 5]
    = 18446744073709551619.
Proof. split; reflexivity. Qed.

(** The first integer printed is not always the mathematical sum of the
    uncovered values of the invalid records: on [sample_sum_overflow] that
    sum is 2^64 + 3 and [main] prints 3. *)
Lemma first_output_is_not_the_unbounded_sum :
  ¬ (∀ (fuel : nat) (lines : list string) (cfgs : list Configuration),
       parseConfigurations (sectionOf Constraints lines) = Done cfgs →
       let nearby := parseTicket <$> sectionOf Nearby lines in
       let invalid :=
         filter (fun t => ¬ Forall (covered cfgs) (Values t)) nearby in
       let values := flat_map (fun t => uncovered cfgs (Values t)) invalid in
       ∃ rest, fst (Main.main fuel lines) = total values :: rest).
Proof.
  intros H.
  destruct (H 2%nat sample_sum_overflow
              [mkConfiguration "class" [mkValidRange 1 3]] eq_refl)
    as [rest Hfst].
  vm_compute in Hfst. discriminate Hfst.
Qed.

(** ** The second output *)

Lemma departureProduct_none fields idx own mul :
  (∀ name, name ∈ fields → Go.HasPrefix name "departure " = false) →
  Main.departureProduct fields idx own mul = Done mul.
Proof.
  revert idx. induction fields as [|field rest IH]; intros idx H; simpl; [done|].
  rewrite (H field) by left. apply IH. intros name Hin. apply H. by right.
Qed.

Lemma departureProduct_spec fields : ∀ idx own mul,
  (∀ i name, fields !! i = Some name →
             Go.HasPrefix name "departure " = true →
             (idx + i < length (Values own))%nat) →
  Main.departureProduct fields idx own mul =
  Done (fold_left GoInt.mul
          (departureValues fields (drop idx (Values own))) mul).
Proof.
  induction fields as [|field rest IH]; intros idx own mul H; simpl; [done|].
  destruct (Values own !! idx) as [v|] eqn:Hv.
  - rewrite (drop_S _ _ _ Hv). unfold departureValues. simpl.
    rewrite filter_cons. simpl.
    assert (∀ i name, rest !! i = Some name →
              Go.HasPrefix name "departure " = true →
              (S idx + i < length (Values own))%nat) as H'.
    { intros i name Hi Hp. specialize (H (S i) name Hi Hp). lia. }
    destruct (Go.HasPrefix field "departure ") eqn:Ep.
    + rewrite decide_True by done. simpl. by rewrite IH.
    + rewrite decide_False by done. by rewrite IH.
  - apply lookup_ge_None in Hv. rewrite drop_ge by done.
    unfold departureValues. rewrite zip_with_nil_r. simpl.
    destruct (Go.HasPrefix field "departure ") eqn:Ep.
    + specialize (H 0%nat field eq_refl Ep). lia.
    + apply departureProduct_none. intros name Hin.
      destruct (Go.HasPrefix name "departure ") eqn:En; [|done].
      apply list_elem_of_lookup in Hin as [i Hi].
      specialize (H (S i) name Hi En). lia.
Qed.



(** On [sample_product_overflow] the resolver returns the two departure
    names and the own ticket's departure values are 2^62 and 3: their
    product 3 * 2^62 is no [int], [mul *= myTicket.Values[idx]] wraps around
    and [main] prints -2^62. *)
Example main_product_overflow :
  Main.main 2 sample_product_overflow
    = ([0; -4611686018427387904], Done tt)
  ∧ product [4611686018427387904; 3] = 13835058055282163712.
Proof. split; reflexivity. Qed.


(** ** The records handed to the resolver *)

(** C9. When the constraint lines parse, the list that [main] passes to
    [getOrdering] is, in input order, the ticket of every line of the
    own-ticket section, whether valid or not, and the ticket of every valid
    line of the nearby section; the same list and the parsed constraints
    are what part 2 of [main] runs [getOrdering] on. *)
Theorem own_ticket_joins_resolver_input (fuel : nat) (lines : list string)
    (cfgs : list Configuration) :
  parseConfigurations (sectionOf Constraints lines) = Done cfgs →
  ∃ st,
    Main.readLines lines Main.state_init = Done st
    ∧ Main.configs st = cfgs
    ∧ Main.validNearbyTickets st =
        flat_map (recordsOf cfgs) (sectionLines Constraints lines)
    ∧ (∀ line, line ∈ sectionOf OwnTicket lines →
               parseTicket line ∈ Main.validNearbyTickets st)
    ∧ (∀ line, line ∈ sectionOf Nearby lines →
               fst (isValidTicket (parseTicket line) cfgs) = true →
               parseTicket line ∈ Main.validNearbyTickets st)
    ∧ (sectionOf OwnTicket lines ≠ [] →
       Main.myTicket st ∈ Main.validNearbyTickets st)
    ∧ Main.part2 fuel st =
        bind (getOrdering fuel (Main.validNearbyTickets st) cfgs)
             (fun orderedFields =>
                Main.departureProduct orderedFields 0 (Main.myTicket st) 1).
Proof.
  intros Hcfg.
  destruct (readLines_spec lines Constraints Main.state_init cfgs eq_refl Hcfg)
    as (st & Hrun & Hc & _ & Hv & _ & Hm).
  simpl in Hc, Hv, Hm. rewrite Hc in Hv.
  exists st. split; [done|]. split; [done|]. split; [done|].
  assert (∀ sec line, line ∈ sectionOf sec lines →
            (sec, line) ∈ sectionLines Constraints lines) as Hsec.
  { intros sec line Hin. unfold sectionOf, only in Hin.
    apply list_elem_of_fmap in Hin as ([sec' line'] & -> & Hin).
    apply list_elem_of_filter in Hin as [Heq Hin]. simpl in Heq. by subst. }
  split; [|split; [|split]].
  - intros line Hin. rewrite Hv. apply list_elem_of_In, in_flat_map.
    exists (OwnTicket, line). split; [by apply list_elem_of_In, Hsec|].
    by left.
  - intros line Hin Hvalid. rewrite Hv. apply list_elem_of_In, in_flat_map.
    exists (Nearby, line). split; [by apply list_elem_of_In, Hsec|].
    unfold recordsOf. simpl. rewrite Hvalid. by left.
  - intros Hne. rewrite Hm, Hv. unfold ownTicket.
    fold (sectionOf OwnTicket lines).
    destruct (last (parseTicket <$> sectionOf OwnTicket lines)) as [t|] eqn:El.
    + simpl. apply last_Some_elem_of in El.
      apply list_elem_of_fmap in El as (line & -> & Hin).
      apply list_elem_of_In, in_flat_map.
      exists (OwnTicket, line). split; [by apply list_elem_of_In, Hsec|].
      by left.
    + apply last_None in El. apply fmap_nil_inv in El. done.
  - unfold Main.part2. by rewrite Hc.
Qed.

(** ** The theorems at concrete inputs *)

Lemma getOrdering_total_witness :
  eliminable tickets_abc 3 configs_abc [(2, 0); (1, 0); (0, 0)]%nat = true
  ∧ ∃ fields, getOrdering 3 tickets_abc configs_abc = Done fields
              ∧ length fields = 3%nat
              ∧ fields ≡ₚ Field <$> configs_abc.
Proof.
  split; [reflexivity|].
  destruct (getOrdering_total tickets_abc configs_abc
              [(2, 0); (1, 0); (0, 0)]%nat (mkTicket [1; 2; 3]))
    as (fields & Hrun & Hlen & _ & Hperm & _).
  - reflexivity.
  - repeat constructor.
  - reflexivity.
  - reflexivity.
  - exists fields. split; [apply Hrun; simpl; lia|]. split; assumption.
Defined.

Lemma assigned_entry_never_changed_witness :
  passFrom tickets_abc [0; 1; 2]%nat (resolver_init 3 configs_abc)
    = Done state_abc_pass1
  ∧ passFrom tickets_abc [0; 1; 2]%nat state_abc_pass1 = Done state_abc_pass2
  ∧ visited (trace state_abc_pass1) = [0; 1; 2]%nat
  ∧ orderedFields state_abc_pass1 !! 2%nat = Some "a"%string
  ∧ orderedFields state_abc_pass2 !! 2%nat = Some "a"%string.
Proof.
  split; [reflexivity|]. split; [reflexivity|].
  destruct (assigned_entry_never_changed tickets_abc 3 configs_abc
              [0; 1; 2]%nat [0; 1; 2]%nat state_abc_pass1 state_abc_pass2)
    as (Hvis & _ & _ & Hentry).
  - repeat constructor.
  - repeat constructor.
  - reflexivity.
  - reflexivity.
  - split; [exact Hvis|].
    destruct (Hentry 2%nat (mkConfiguration "a" [mkValidRange 1 3]))
      as (H1 & H2 & _); [|split; assumption].
    vm_compute. left.
Defined.

Lemma scan_short_circuit_witness :
  columnValues tickets_abc 0 = Done [1]
  ∧ tested (scanConfigs [1] configs_abc 0 scan_init) = 2%nat
  ∧ validConfigCount (scanConfigs [1] configs_abc 0 scan_init) = 2
  ∧ ∃ st', scanPosition tickets_abc 0 (resolver_init 3 configs_abc) = Done st'.
Proof.
  split; [reflexivity|].
  destruct (scan_short_circuit tickets_abc 0 (resolver_init 3 configs_abc) [1])
    as (Hstop & _ & st' & Hs & _); [reflexivity|].
  destruct (Hstop [] (mkConfiguration "a" [mkValidRange 1 3])
                  [] (mkConfiguration "b" [mkValidRange 1 2])
                  [mkConfiguration "c" [mkValidRange 1 1]])
    as (Ht & Hc & _); [reflexivity..|].
  split; [exact Ht|]. split; [exact Hc|]. exists st'. exact Hs.
Defined.

Lemma unique_candidate_removed_at_once_witness :
  columnValues tickets_abc 2 = Done [3]
  ∧ ∃ st1, scanPosition tickets_abc 2 (resolver_init 3 configs_abc) = Done st1
           ∧ configs st1 = [ mkConfiguration "b" [mkValidRange 1 2];
                             mkConfiguration "c" [mkValidRange 1 1] ]
           ∧ orderedFields st1 = [""; ""; "a"]%string.
Proof.
  split; [reflexivity|].
  destruct (unique_candidate_removed_at_once tickets_abc 2
              (resolver_init 3 configs_abc) [3]
              [] (mkConfiguration "a" [mkValidRange 1 3])
              [ mkConfiguration "b" [mkValidRange 1 2];
                mkConfiguration "c" [mkValidRange 1 1] ])
    as (st1 & Hs & Hc & Ho & _); [reflexivity..|].
  exists st1. split; [exact Hs|]. split; [exact Hc|]. exact Ho.
Defined.

Lemma stuck_pass_loops_forever_witness :
  pass tickets_one 1 (resolver_init 1 configs_twins)
    = Done (mkResolver configs_twins [""%string] [Visit 0 configs_twins])
  ∧ resolveLoop 9 tickets_one 1 (resolver_init 1 configs_twins) = Timeout
  ∧ getOrdering 9 tickets_one configs_twins = Timeout.
Proof.
  split; [reflexivity|].
  destruct (stuck_pass_loops_forever tickets_one 1) as [Hstuck _].
  destruct (Hstuck (resolver_init 1 configs_twins)
              (mkResolver configs_twins [""%string] [Visit 0 configs_twins]))
    as [_ Hloop]; [discriminate|reflexivity|reflexivity|].
  split; [apply Hloop|].
  change (getOrdering 9 tickets_one configs_twins)
    with (bind (resolveLoop 9 tickets_one 1 (resolver_init 1 configs_twins))
               (fun st => Done (orderedFields st))).
  rewrite Hloop. reflexivity.
Defined.

Lemma getOrdering_needs_a_ticket_witness :
  getOrdering 3 [] configs_abc = Panic
  ∧ firstTicket tickets_abc = Done (mkTicket [1; 2; 3])
  ∧ getOrdering 0 tickets_abc [] = Done [""; ""; ""]%string.
Proof.
  destruct getOrdering_needs_a_ticket as [Hempty Hsome].
  split; [apply Hempty|].
  destruct (Hsome tickets_abc) as (ticket0 & H0 & Hfirst & _ & Hnone);
    [discriminate|].
  injection H0 as <-. split; [exact Hfirst|]. apply Hnone.
Defined.

Lemma first_output_is_invalid_sum_witness :
  parseConfigurations (sectionOf Constraints sample1) = Done configs_sample1
  ∧ ∃ rest, fst (Main.main 5 sample1) = 71 :: rest.
Proof.
  split; [reflexivity|].
  destruct (first_output_is_invalid_sum 5 sample1 configs_sample1)
    as (sum & rest & Hfst & Hsum & _); [reflexivity|].
  exists rest. rewrite Hfst, Hsum. reflexivity.
Defined.


Lemma own_ticket_joins_resolver_input_witness :
  parseConfigurations (sectionOf Constraints sample1) = Done configs_sample1
  ∧ ∃ st, Main.readLines sample1 Main.state_init = Done st
          ∧ mkTicket [7; 1; 14] ∈ Main.validNearbyTickets st.
Proof.
  split; [reflexivity|].
  destruct (own_ticket_joins_resolver_input 5 sample1 configs_sample1)
    as (st & Hrun & _ & _ & Hown & _); [reflexivity|].
  exists st. split; [exact Hrun|].
  apply (Hown "7,1,14"%string). vm_compute. left.
Defined.

(** * Further properties *)

(** ** The validator and the set of configurations *)

Lemma covered_app cs more v : covered cs v → covered (cs ++ more) v.
Proof. unfold covered. rewrite Exists_app. by left. Qed.

Lemma covered_nil v : ¬ covered [] v.
Proof. unfold covered. intros H. by apply Exists_nil in H. Qed.

Lemma uncovered_ext cs cs' vs :
  (∀ v, covered cs v ↔ covered cs' v) → uncovered cs vs = uncovered cs' vs.
Proof.
  intros H. unfold uncovered. apply list_filter_iff. intros v.
  by rewrite H.
Qed.

Lemma isValidTicket_ext t cs cs' :
  (∀ v, covered cs v ↔ covered cs' v) → isValidTicket t cs = isValidTicket t cs'.
Proof.
  intros H. by rewrite !isValidTicket_unfold, (uncovered_ext cs cs').
Qed.

(** X1. The answer of [isValidTicket] does not depend on the order of the
    configurations: on two lists that are permutations of each other it
    returns the same flag and the same invalid values. *)
Theorem isValidTicket_permutation (ticket : Ticket)
    (configs1 configs2 : list Configuration) :
  configs1 ≡ₚ configs2 →
  isValidTicket ticket configs1 = isValidTicket ticket configs2.
Proof.
  intros Hperm. apply isValidTicket_ext. intros v. unfold covered.
  rewrite !Exists_exists. split; intros (c & Hc & Hr); exists c;
    (split; [|done]); [by rewrite <- Hperm|by rewrite Hperm].
Qed.

(** X2. Further configurations can only shrink the invalid values: with
    [more] added, a valid ticket stays valid, and the invalid values are a
    sub-sequence of the ones reported without [more]. *)
Theorem isValidTicket_more_configs (ticket : Ticket)
    (configs more : list Configuration) :
  (fst (isValidTicket ticket configs) = true →
   fst (isValidTicket ticket (configs ++ more)) = true)
  ∧ snd (isValidTicket ticket (configs ++ more))
      `sublist_of` snd (isValidTicket ticket configs).
Proof.
  split.
  - rewrite !isValidTicket_fst. intros H. eapply Forall_impl; [exact H|].
    intros v. apply covered_app.
  - rewrite !isValidTicket_snd. unfold uncovered.
    induction (Values ticket) as [|v vs IH]; [done|].
    rewrite !filter_cons.
    destruct (decide (¬ covered (configs ++ more) v)) as [Hn|Hn].
    + rewrite decide_True; [by apply sublist_skip|].
      intros Hc. by apply Hn, covered_app.
    + destruct (decide (¬ covered configs v)); [by apply sublist_cons|done].
Qed.

(** X3. Without any configuration no value is covered: every value of the
    ticket is reported, in order, and the ticket is valid only if it has no
    value at all. A ticket without values is valid whatever the
    configurations. *)
Theorem isValidTicket_no_configs (ticket : Ticket) :
  snd (isValidTicket ticket []) = Values ticket
  ∧ (fst (isValidTicket ticket []) = true ↔ Values ticket = [])
  ∧ ∀ configs, isValidTicket (mkTicket []) configs = (true, []).
Proof.
  assert (uncovered [] (Values ticket) = Values ticket) as Hall.
  { unfold uncovered. induction (Values ticket) as [|v vs IH]; [done|].
    rewrite filter_cons, decide_True by apply covered_nil. by rewrite IH. }
  split; [by rewrite isValidTicket_snd|]. split; [|done].
  rewrite isValidTicket_unfold, Hall. by destruct (Values ticket).
Qed.

(** ** What a returned ordering holds *)

Lemma isValidRange_spec v rs :
  isValidRange v rs = true ↔ Exists (fun r => Min r ≤ v ≤ Max r) rs.
Proof.
  induction rs as [|r rs IH]; simpl.
  - rewrite Exists_nil. split; [done|tauto].
  - rewrite Exists_cons, <- inRange_spec, <- IH.
    destruct (inRange v r); intuition congruence.
Qed.

Lemma isValidConfig_spec values c :
  isValidConfig values c = true ↔
  Forall (fun v => Exists (fun r => Min r ≤ v ≤ Max r) (Ranges c)) values.
Proof.
  induction values as [|v values IH]; simpl.
  - split; [constructor|done].
  - rewrite Forall_cons, <- isValidRange_spec, <- IH.
    destruct (isValidRange v (Ranges c)); simpl; intuition congruence.
Qed.

Lemma columnValues_spec tickets p values :
  columnValues tickets p = Done values ↔
  Forall2 (fun t v => Values t !! p = Some v) tickets values.
Proof.
  revert values. induction tickets as [|t ts IH]; intros values; simpl.
  - split; [by intros [= <-]|]. intros H. by apply Forall2_nil_inv_l in H as ->.
  - destruct (Values t !! p) as [v|] eqn:Hv.
    + destruct (columnValues ts p) as [vs| |] eqn:Hvs; simpl.
      * split.
        -- intros [= <-]. constructor; [done|]. by apply IH.
        -- intros H. apply Forall2_cons_inv_l in H as (v' & vs' & Hv' & Hrest & ->).
           apply IH in Hrest. congruence.
      * split; [done|]. intros H.
        apply Forall2_cons_inv_l in H as (v' & vs' & _ & Hrest & ->).
        by apply IH in Hrest.
      * split; [done|]. intros H.
        apply Forall2_cons_inv_l in H as (v' & vs' & _ & Hrest & ->).
        by apply IH in Hrest.
    + split; [done|]. intros H.
      apply Forall2_cons_inv_l in H as (v' & vs' & Hv' & _ & ->). congruence.
Qed.

(** The state in which a run of [getOrdering] ends. *)
Lemma getOrdering_run_end fuel tickets configs0 st :
  getOrdering_run fuel tickets configs0 = Done st →
  ∃ ticket0, tickets !! 0%nat = Some ticket0 ∧
    Inv tickets (length (Values ticket0)) configs0 st ∧ configs st = [].
Proof.
  unfold getOrdering_run, firstTicket.
  destruct (tickets !! 0%nat) as [ticket0|]; [|done]. simpl. intros Hrun.
  exists ticket0. split; [done|].
  destruct (resolveLoop_steps _ _ _ _ _ Hrun) as (evs & Hsteps & Hnil).
  split; [|done]. eapply Inv_steps; [exact Hsteps|apply Inv_init].
Qed.

Lemma getOrdering_Done fuel tickets configs0 fields :
  getOrdering fuel tickets configs0 = Done fields →
  ∃ st, getOrdering_run fuel tickets configs0 = Done st ∧
        fields = orderedFields st.
Proof.
  unfold getOrdering.
  destruct (getOrdering_run fuel tickets configs0) as [st| |]; [|done..].
  simpl. intros [= <-]. eauto.
Qed.

(** The names written by a run sit in the result, each at its own
    position. *)
Lemma Inv_names_submseteq tickets L R0 st :
  Inv tickets L R0 st →
  Field <$> (assignments (trace st)).*2 ⊆+ orderedFields st.
Proof.
  intros HI. set (asg := assignments (trace st)).
  assert (asg.*1 ⊆+ seq 0 L) as Hpos.
  { apply NoDup_submseteq; [apply (inv_nodup _ _ _ _ HI)|].
    intros p Hp. apply elem_of_seq.
    pose proof (inv_below _ _ _ _ HI p Hp). lia. }
  rewrite <- (fmap_lookup_seq (orderedFields st)), (inv_length _ _ _ _ HI).
  trans ((fun p => default EmptyString (orderedFields st !! p)) <$> asg.*1);
    [|by apply fmap_submseteq].
  rewrite <- !list_fmap_compose.
  apply eq_subrelation; [apply _|].
  apply Forall_fmap_ext, Forall_forall. intros [p c] Hin. simpl.
  by rewrite (inv_entry _ _ _ _ HI p c Hin).
Qed.

(** Positions that no event has assigned still hold the empty name. *)
Lemma steps_unassigned tickets L st evs st' :
  steps tickets L st evs st' →
  (∀ p name, orderedFields st !! p = Some name →
             p ∉ assigned (trace st) → name = EmptyString) →
  ∀ p name, orderedFields st' !! p = Some name →
            p ∉ assigned (trace st') → name = EmptyString.
Proof.
  induction 1 as [|st q st1 evs1 evs2 st2 Hq Hs Ht _ IH]; [done|].
  intros H0. apply IH. clear IH.
  destruct (scanPosition_column _ _ _ _ Hs) as [values Hv].
  destruct (scanPosition_cases tickets q st values Hv)
    as [(R1 & c & R2 & HR & H1 & Hc & H2 & Hs')|[Hn Hs']];
    rewrite Hs' in Hs; injection Hs as <-; simpl in *;
    intros p name Hp Hna.
  - rewrite assigned_app in Hna. apply not_elem_of_app in Hna as [Hna Hq'].
    assert (p ≠ q) as Hne.
    { intros ->. apply Hq'. unfold assigned. simpl. left. }
    rewrite list_lookup_insert_ne in Hp by done. by apply (H0 p).
  - rewrite assigned_app, app_nil_r in Hna. by apply (H0 p).
Qed.

(** X4. Whenever [getOrdering] returns, the result has as many entries as
    the first ticket has values, and the names of all configurations are
    among them, each as often as it is the name of a configuration; so
    there were no more configurations than positions. *)
Theorem getOrdering_result_shape (fuel : nat) (tickets : list Ticket)
    (configs0 : list Configuration) (fields : list string) :
  getOrdering fuel tickets configs0 = Done fields →
  ∃ ticket0, tickets !! 0%nat = Some ticket0
    ∧ length fields = length (Values ticket0)
    ∧ Field <$> configs0 ⊆+ fields
    ∧ (length configs0 ≤ length (Values ticket0))%nat.
Proof.
  intros Hrun. destruct (getOrdering_Done _ _ _ _ Hrun) as (st & Hst & ->).
  destruct (getOrdering_run_end _ _ _ _ Hst) as (ticket0 & H0 & HI & Hnil).
  exists ticket0. split; [done|].
  pose proof (inv_length _ _ _ _ HI) as Hlen. split; [done|].
  assert (Field <$> configs0 ⊆+ orderedFields st) as Hsub.
  { pose proof (inv_perm _ _ _ _ HI) as Hperm. rewrite Hnil in Hperm.
    simpl in Hperm. rewrite Hperm. by eapply Inv_names_submseteq. }
  split; [done|]. apply submseteq_length in Hsub.
  rewrite length_fmap in Hsub. lia.
Qed.

(** X5. Whenever [getOrdering] returns, every entry of the result is either
    the empty name of a position that was never assigned, or the name of a
    configuration of the input that every ticket satisfies at that
    position: each ticket has a value there and the value lies in one of
    the ranges of the configuration. *)
Theorem getOrdering_sound (fuel : nat) (tickets : list Ticket)
    (configs0 : list Configuration) (fields : list string) :
  getOrdering fuel tickets configs0 = Done fields →
  ∀ p name, fields !! p = Some name →
    name = EmptyString
    ∨ ∃ c, c ∈ configs0 ∧ name = Field c ∧
           ∀ t, t ∈ tickets →
                ∃ v, Values t !! p = Some v ∧
                     Exists (fun r => Min r ≤ v ≤ Max r) (Ranges c).
Proof.
  intros Hrun p name Hp.
  destruct (getOrdering_Done _ _ _ _ Hrun) as (st & Hst & ->).
  destruct (getOrdering_run_end _ _ _ _ Hst) as (ticket0 & H0 & HI & Hnil).
  destruct (decide (p ∈ assigned (trace st))) as [Hin|Hout].
  - right. unfold assigned in Hin.
    apply list_elem_of_fmap in Hin as ([p' c] & -> & Hin). simpl in *.
    exists c. split; [|split].
    + pose proof (inv_perm _ _ _ _ HI) as Hperm. rewrite Hnil in Hperm.
      simpl in Hperm. rewrite Hperm.
      apply list_elem_of_fmap. by exists (p', c).
    + pose proof (inv_entry _ _ _ _ HI p' c Hin). congruence.
    + intros t Ht.
      pose proof (inv_below _ _ _ _ HI p') as Hlt.
      assert (p' ∈ assigned (trace st)) as Hp'.
      { unfold assigned. apply list_elem_of_fmap. by exists (p', c). }
      pose proof (inv_spent _ _ _ _ HI p') as Hspent.
      (* the column of an assigned position was read without panic *)
      assert (∃ values, columnValues tickets p' = Done values) as [values Hv].
      { unfold getOrdering_run, firstTicket in Hst. rewrite H0 in Hst.
        simpl in Hst.
        destruct (resolveLoop_steps _ _ _ _ _ Hst) as (evs & Hsteps & _).
        clear - Hsteps Hin. simpl in *.
        assert (∀ st0 evs st1, steps tickets (length (Values ticket0)) st0 evs st1 →
                  (p', c) ∈ assignments evs →
                  ∃ values, columnValues tickets p' = Done values) as Hgen.
        { clear. induction 1 as [|st q st1 evs1 evs2 st2 Hq Hs Ht _ IH];
            intros Hin; [by apply elem_of_nil in Hin|].
          rewrite assignments_app in Hin. apply elem_of_app in Hin as [Hin|Hin];
            [|by apply IH].
          destruct (scanPosition_column _ _ _ _ Hs) as [values Hv].
          destruct (scanPosition_cases tickets q st values Hv)
            as [(R1 & c' & R2 & HR & H1 & Hc & H2 & Hs')|[Hn Hs']];
            rewrite Hs' in Hs; injection Hs as <-; simpl in *;
            apply app_inv_head in Ht as <-; simpl in Hin.
          - apply list_elem_of_singleton in Hin. injection Hin as -> ->. eauto.
          - by apply elem_of_nil in Hin. }
        apply (Hgen _ _ _ Hsteps).
        by rewrite (steps_trace _ _ _ _ _ Hsteps) in Hin. }
      pose proof (inv_valid _ _ _ _ HI p' c values Hin Hv) as Hvalid.
      apply isValidConfig_spec in Hvalid. apply columnValues_spec in Hv.
      apply list_elem_of_lookup in Ht as [i Hi].
      destruct (Forall2_lookup_l _ _ _ _ _ Hv Hi) as (v & Hvi & Hlook).
      exists v. split; [done|].
      rewrite Forall_forall in Hvalid. apply Hvalid.
      by eapply list_elem_of_lookup_2.
  - left.
    unfold getOrdering_run, firstTicket in Hst. rewrite H0 in Hst. simpl in Hst.
    destruct (resolveLoop_steps _ _ _ _ _ Hst) as (evs & Hsteps & _).
    eapply (steps_unassigned _ _ _ _ _ Hsteps); [|exact Hp|exact Hout].
    simpl. intros q n Hq _. apply lookup_replicate in Hq as [-> _]. done.
Qed.

(** ** Panics of the resolver *)

Lemma columnValues_not_timeout tickets p : columnValues tickets p ≠ Timeout.
Proof.
  induction tickets as [|t ts IH]; simpl; [done|].
  destruct (Values t !! p); [|done].
  by destruct (columnValues ts p).
Qed.

Lemma columnValues_short tickets p t :
  t ∈ tickets → (length (Values t) ≤ p)%nat → columnValues tickets p = Panic.
Proof.
  intros Hin Hlen. induction tickets as [|t' ts IH]; simpl.
  { by apply elem_of_nil in Hin. }
  destruct (Values t' !! p) as [v|] eqn:Hv; [|done].
  apply elem_of_cons in Hin as [->|Hin].
  - apply lookup_lt_Some in Hv. lia.
  - by rewrite IH.
Qed.

Lemma passFrom_panic tickets ps st p :
  p ∈ ps → columnValues tickets p = Panic → passFrom tickets ps st = Panic.
Proof.
  revert st. induction ps as [|q ps IH]; intros st Hin Hp.
  { by apply elem_of_nil in Hin. }
  simpl. destruct (columnValues tickets q) as [values| |] eqn:Hq.
  - destruct (scanPosition_done tickets q st values Hq) as [st1 ->]. simpl.
    apply elem_of_cons in Hin as [->|Hin]; [congruence|]. by apply IH.
  - unfold scanPosition. by rewrite Hq.
  - by apply columnValues_not_timeout in Hq.
Qed.

Lemma resolveLoop_no_panic tickets L :
  wide L tickets → ∀ fuel st, resolveLoop fuel tickets L st ≠ Panic.
Proof.
  intros Hw fuel. induction fuel as [|fuel IH]; intros st; simpl.
  - by destruct (configs st).
  - destruct (configs st); [done|].
    destruct (passFrom_done L tickets (seq 0 L) st Hw (seq_below L)) as [st1 Hp].
    unfold pass. rewrite Hp. simpl. apply IH.
Qed.

(** X6. On a non-empty ticket list in which no ticket is shorter than the
    first, [getOrdering] never panics, whatever the configurations and the
    fuel: every column is read within bounds and the slice expressions
    that remove a configuration always have an index in range. *)
Theorem getOrdering_no_panic (tickets : list Ticket) (ticket0 : Ticket) :
  tickets !! 0%nat = Some ticket0 →
  Forall (fun t => (length (Values ticket0) ≤ length (Values t))%nat) tickets →
  ∀ fuel configs0, getOrdering fuel tickets configs0 ≠ Panic.
Proof.
  intros H0 Hw fuel configs0. unfold getOrdering, getOrdering_run, firstTicket.
  rewrite H0. simpl.
  pose proof (resolveLoop_no_panic tickets (length (Values ticket0)) Hw fuel
                (resolver_init (length (Values ticket0)) configs0)) as Hnp.
  by destruct (resolveLoop _ _ _ _).
Qed.

(** X7. When some ticket has fewer values than the first one and there is
    at least one configuration, the first pass panics on the read of
    [ticket.Values[fieldPos]]: [getOrdering] panics for every fuel that
    lets the loop start. *)
Theorem getOrdering_short_ticket_panics (tickets : list Ticket)
    (ticket0 t : Ticket) (configs0 : list Configuration) :
  tickets !! 0%nat = Some ticket0 →
  t ∈ tickets →
  (length (Values t) < length (Values ticket0))%nat →
  configs0 ≠ [] →
  ∀ fuel, getOrdering (S fuel) tickets configs0 = Panic.
Proof.
  intros H0 Hin Hlt Hne fuel. unfold getOrdering, getOrdering_run, firstTicket.
  rewrite H0. simpl. destruct configs0 as [|c0 cs]; [done|].
  unfold pass.
  rewrite (passFrom_panic tickets _ _ (length (Values t))); [done|..].
  - apply elem_of_seq. lia.
  - by apply (columnValues_short tickets _ t).
Qed.

(** ** Configurations that cannot be told apart *)

Lemma isValidConfig_ranges values c1 c2 :
  Ranges c1 = Ranges c2 → isValidConfig values c1 = isValidConfig values c2.
Proof.
  intros HR. induction values as [|v values IH]; simpl; [done|].
  by rewrite HR, IH.
Qed.

Lemma passing_sublist values (l R : list Configuration) :
  l `sublist_of` R → passing values l `sublist_of` passing values R.
Proof.
  induction 1 as [|c l R _ IH|c l R _ IH]; [done|..].
  - destruct (isValidConfig values c) eqn:E.
    + rewrite !passing_cons_true by done. by apply sublist_skip.
    + by rewrite !passing_cons_false.
  - destruct (isValidConfig values c) eqn:E.
    + rewrite passing_cons_true by done. by apply sublist_cons.
    + by rewrite passing_cons_false.
Qed.

Lemma sublist_remove_middle (l R1 : list Configuration) c R2 :
  l `sublist_of` R1 ++ c :: R2 → c ∉ l → l `sublist_of` R1 ++ R2.
Proof.
  intros Hsub Hc.
  apply sublist_app_r in Hsub as (k1 & k2 & -> & Hk1 & Hk2).
  apply sublist_cons_r in Hk2 as [Hk2|(k2' & -> & Hk2)].
  - by apply sublist_app.
  - exfalso. apply Hc. apply elem_of_app. right. left.
Qed.

Lemma scanPosition_keeps_twins tickets q st st1 c1 c2 :
  Ranges c1 = Ranges c2 →
  scanPosition tickets q st = Done st1 →
  [c1; c2] `sublist_of` configs st → [c1; c2] `sublist_of` configs st1.
Proof.
  intros HR Hs Hsub.
  destruct (scanPosition_column _ _ _ _ Hs) as [values Hv].
  destruct (scanPosition_cases tickets q st values Hv)
    as [(R1 & c & R2 & HRc & H1 & Hc & H2 & Hs')|[Hn Hs']];
    rewrite Hs' in Hs; injection Hs as <-; simpl; [|done].
  pose proof (isValidConfig_ranges values c1 c2 HR) as Heq.
  destruct (isValidConfig values c1) eqn:E1.
  - apply (passing_sublist values) in Hsub.
    rewrite HRc, passing_length_one in Hsub by done.
    rewrite !passing_cons_true in Hsub by done.
    apply sublist_length in Hsub. simpl in Hsub. lia.
  - rewrite HRc in Hsub. apply sublist_remove_middle in Hsub; [done|].
    intros Hin. apply elem_of_cons in Hin as [->|Hin]; [congruence|].
    apply list_elem_of_singleton in Hin as ->. congruence.
Qed.

Lemma steps_keep_twins tickets L st evs st' c1 c2 :
  Ranges c1 = Ranges c2 →
  steps tickets L st evs st' →
  [c1; c2] `sublist_of` configs st → [c1; c2] `sublist_of` configs st'.
Proof.
  intros HR. induction 1 as [|st p st1 evs1 evs2 st2 Hp Hs Ht _ IH]; [done|].
  intros Hsub. apply IH. by eapply scanPosition_keeps_twins.
Qed.

(** X8. Two configurations with the same ranges, whatever their names, are
    never resolved: every column that one satisfies the other satisfies
    too, so neither is ever the single candidate of a position, both stay
    in the remaining set and [getOrdering] does not return. *)
Theorem getOrdering_twins_never_return (tickets : list Ticket)
    (configs0 : list Configuration) (c1 c2 : Configuration) :
  [c1; c2] `sublist_of` configs0 →
  Ranges c1 = Ranges c2 →
  ∀ fuel fields, getOrdering fuel tickets configs0 ≠ Done fields.
Proof.
  intros Hsub HR fuel fields Hrun.
  destruct (getOrdering_Done _ _ _ _ Hrun) as (st & Hst & _).
  unfold getOrdering_run in Hst.
  destruct (firstTicket tickets) as [ticket0| |]; [|done..]. simpl in Hst.
  destruct (resolveLoop_steps _ _ _ _ _ Hst) as (evs & Hsteps & Hnil).
  pose proof (steps_keep_twins _ _ _ _ _ c1 c2 HR Hsteps Hsub) as Hend.
  rewrite Hnil in Hend. by apply sublist_nil_r in Hend.
Qed.

(** ** The returned assignment is the only one *)

Lemma fmap_lookup_seq_default {A} (d : A) (l : list A) :
  (fun p => default d (l !! p)) <$> seq 0 (length l) = l.
Proof.
  apply list_eq. intros i. rewrite list_lookup_fmap.
  destruct (decide (i < length l)%nat) as [Hi|Hi].
  - rewrite lookup_seq_lt by done. simpl.
    destruct (lookup_lt_is_Some_2 l i Hi) as [x Hx]. by rewrite Hx.
  - rewrite lookup_seq_ge by lia. simpl. symmetry. apply lookup_ge_None_2. lia.
Qed.

(** The entries of a list at distinct positions form a sub-multiset. *)
Lemma lookups_submseteq {A} (d : A) (l : list A) (ps : list nat) :
  NoDup ps → (∀ p, p ∈ ps → (p < length l)%nat) →
  (fun p => default d (l !! p)) <$> ps ⊆+ l.
Proof.
  intros Hnd Hlt.
  trans ((fun p => default d (l !! p)) <$> seq 0 (length l));
    [|by rewrite fmap_lookup_seq_default].
  apply fmap_submseteq, NoDup_submseteq; [done|].
  intros p Hp. apply elem_of_seq. specialize (Hlt p Hp). lia.
Qed.

(** In a run, a consistent assignment [sigma] of all configurations agrees
    with every removal. *)
Lemma steps_agree tickets L R0 (sigma : list Configuration) st evs st' :
  sigma ≡ₚ R0 → length sigma = L →
  (∀ p c, sigma !! p = Some c → satisfiesColumn tickets p c = true) →
  steps tickets L st evs st' →
  Inv tickets L R0 st →
  (∀ p c, (p, c) ∈ assignments (trace st) → sigma !! p = Some c) →
  ∀ p c, (p, c) ∈ assignments (trace st') → sigma !! p = Some c.
Proof.
  intros Hperm Hlen Hcons.
  induction 1 as [|st q st1 evs1 evs2 st2 Hq Hs Ht _ IH]; [done|].
  intros HI HJ. apply IH; [by eapply Inv_scanPosition|]. clear IH.
  destruct (scanPosition_column _ _ _ _ Hs) as [values Hv].
  destruct (scanPosition_cases tickets q st values Hv)
    as [(R1 & c & R2 & HR & H1 & Hc & H2 & Hs')|[Hn Hs']];
    rewrite Hs' in Hs; injection Hs as <-; simpl in *;
    intros p c' Hin; rewrite assignments_app in Hin;
    apply elem_of_app in Hin as [Hin|Hin];
    [by apply HJ| |by apply HJ|by apply elem_of_nil in Hin].
  apply list_elem_of_singleton in Hin. injection Hin as -> ->.
  (* [q] is a fresh position below [L]: [sigma] holds some [c'] there *)
  assert (q ∉ assigned (trace st)) as Hfresh.
  { intros Hq'. pose proof (inv_spent _ _ _ _ HI q values Hq' Hv) as Hnil.
    rewrite HR, passing_length_one in Hnil by done. done. }
  destruct (lookup_lt_is_Some_2 sigma q) as [c' Hc']; [lia|].
  assert (isValidConfig values c' = true) as Hpass.
  { specialize (Hcons q c' Hc'). unfold satisfiesColumn in Hcons.
    by rewrite Hv in Hcons. }
  (* [c'] is among the remaining configurations *)
  set (asg := assignments (trace st)) in *.
  assert (c' :: asg.*2 ⊆+ sigma) as Hsub.
  { assert ((fun p => default Configuration_zero (sigma !! p)) <$> (q :: asg.*1)
            = c' :: asg.*2) as <-.
    { rewrite fmap_cons, Hc'. simpl. f_equal.
      rewrite <- !list_fmap_compose.
      apply Forall_fmap_ext, Forall_forall. intros [p c0] Hin. simpl.
      by rewrite (HJ p c0 Hin). }
    apply lookups_submseteq.
    - apply NoDup_cons. split; [done|apply (inv_nodup _ _ _ _ HI)].
    - intros p Hp. apply elem_of_cons in Hp as [->|Hp]; [lia|].
      rewrite Hlen. by apply (inv_below _ _ _ _ HI). }
  rewrite Hperm, (inv_perm _ _ _ _ HI) in Hsub. fold asg in Hsub.
  assert ([c'] ⊆+ configs st) as Hone.
  { apply (submseteq_app_inv_l _ _ (asg.*2)).
    rewrite <- Permutation_cons_append.
    by rewrite (Permutation_app_comm (asg.*2) (configs st)). }
  assert (c' ∈ passing values (configs st)) as Hin.
  { unfold passing. apply list_elem_of_filter. split; [done|].
    eapply elem_of_submseteq; [|exact Hone]. left. }
  rewrite HR, passing_length_one in Hin by done.
  apply list_elem_of_singleton in Hin. by subst.
Qed.

(** X9. What [getOrdering] returns is the only consistent assignment: if
    the configurations can be laid out one per position, as a list [sigma]
    that is a permutation of them, so that every ticket satisfies at each
    position the configuration laid there, then the names returned are the
    names of [sigma], position by position. *)
Theorem getOrdering_unique_assignment (fuel : nat) (tickets : list Ticket)
    (configs0 : list Configuration) (fields : list string)
    (sigma : list Configuration) :
  getOrdering fuel tickets configs0 = Done fields →
  sigma ≡ₚ configs0 →
  length sigma = length fields →
  (∀ p c, sigma !! p = Some c → satisfiesColumn tickets p c = true) →
  fields = Field <$> sigma.
Proof.
  intros Hrun Hperm Hlen Hcons.
  destruct (getOrdering_Done _ _ _ _ Hrun) as (st & Hst & ->).
  destruct (getOrdering_run_end _ _ _ _ Hst) as (ticket0 & H0 & HI & Hnil).
  set (L := length (Values ticket0)) in *.
  pose proof (inv_length _ _ _ _ HI) as HL. rewrite HL in Hlen.
  unfold getOrdering_run, firstTicket in Hst. rewrite H0 in Hst. simpl in Hst.
  destruct (resolveLoop_steps _ _ _ _ _ Hst) as (evs & Hsteps & _).
  assert (∀ p c, (p, c) ∈ assignments (trace st) → sigma !! p = Some c) as HJ.
  { eapply (steps_agree tickets L configs0 sigma); eauto.
    - apply Inv_init.
    - intros p c Hin. by apply elem_of_nil in Hin. }
  pose proof (inv_perm _ _ _ _ HI) as Hasg. rewrite Hnil in Hasg. simpl in Hasg.
  assert ((assignments (trace st)).*1 ≡ₚ seq 0 L) as Hpos.
  { apply positions_full.
    - apply (inv_nodup _ _ _ _ HI).
    - apply (inv_below _ _ _ _ HI).
    - rewrite length_fmap, <- Hlen, Hperm, Hasg. by rewrite length_fmap. }
  apply list_eq. intros p. rewrite list_lookup_fmap.
  destruct (decide (p < L)%nat) as [Hp|Hp].
  - assert (p ∈ (assignments (trace st)).*1) as Hin.
    { rewrite Hpos. apply elem_of_seq. lia. }
    apply list_elem_of_fmap in Hin as ([p' c] & -> & Hin). simpl.
    by rewrite (inv_entry _ _ _ _ HI p' c Hin), (HJ p' c Hin).
  - rewrite !lookup_ge_None_2; [done|lia..].
Qed.

(** ** The order of the tickets *)

Lemma isValidConfig_perm values values' c :
  values ≡ₚ values' → isValidConfig values c = isValidConfig values' c.
Proof.
  intros Hperm.
  pose proof (isValidConfig_spec values c) as H1.
  pose proof (isValidConfig_spec values' c) as H2.
  rewrite Forall_forall in H1. rewrite Forall_forall in H2.
  assert (∀ v, v ∈ values ↔ v ∈ values') as Hin.
  { intros v. by rewrite Hperm. }
  destruct (isValidConfig values c), (isValidConfig values' c); try done.
  - symmetry. apply H2. intros v Hv. apply H1; [done|]. by apply Hin.
  - apply H1. intros v Hv. apply H2; [done|]. by apply Hin.
Qed.

Lemma scanConfigs_ext values values' R idx s :
  (∀ c, isValidConfig values c = isValidConfig values' c) →
  scanConfigs values R idx s = scanConfigs values' R idx s.
Proof.
  intros Hext. revert idx s. induction R as [|c R IH]; intros idx s; simpl;
    [done|].
  rewrite <- (Hext c). destruct (isValidConfig values c); [|apply IH].
  destruct (_ >? _); [done|apply IH].
Qed.

Lemma same_column_trans r1 r2 r3 :
  same_column r1 r2 → same_column r2 r3 → same_column r1 r3.
Proof.
  destruct r1, r2, r3; simpl; try done. intros H1 H2. by etrans.
Qed.

Lemma columnValues_perm tickets tickets' p :
  tickets ≡ₚ tickets' →
  same_column (columnValues tickets p) (columnValues tickets' p).
Proof.
  induction 1 as [|t ts ts' _ IH|t1 t2 ts|ts1 ts2 ts3 _ IH1 _ IH2]; simpl.
  - done.
  - destruct (Values t !! p); [|done].
    destruct (columnValues ts p), (columnValues ts' p); simpl in *; try done.
    by constructor.
  - pose proof (columnValues_not_timeout ts p).
    destruct (Values t1 !! p), (Values t2 !! p), (columnValues ts p);
      simpl; try done.
    apply perm_swap.
  - by eapply same_column_trans.
Qed.

Lemma scanPosition_perm tickets tickets' p st :
  tickets ≡ₚ tickets' →
  scanPosition tickets p st = scanPosition tickets' p st.
Proof.
  intros Hperm. pose proof (columnValues_perm _ _ p Hperm) as Hcol.
  unfold scanPosition.
  destruct (columnValues tickets p) as [values| |],
           (columnValues tickets' p) as [values'| |]; simpl in *; try done.
  rewrite (scanConfigs_ext values values'); [done|].
  intros c. by apply isValidConfig_perm.
Qed.

Lemma passFrom_perm tickets tickets' ps st :
  tickets ≡ₚ tickets' → passFrom tickets ps st = passFrom tickets' ps st.
Proof.
  intros Hperm. revert st. induction ps as [|p ps IH]; intros st; simpl; [done|].
  rewrite (scanPosition_perm tickets tickets') by done.
  destruct (scanPosition tickets' p st); simpl; [apply IH|done..].
Qed.

Lemma resolveLoop_perm fuel tickets tickets' L st :
  tickets ≡ₚ tickets' →
  resolveLoop fuel tickets L st = resolveLoop fuel tickets' L st.
Proof.
  intros Hperm. revert st. induction fuel as [|fuel IH]; intros st; simpl;
    [done|].
  destruct (configs st); [done|]. unfold pass.
  rewrite (passFrom_perm tickets tickets') by done.
  destruct (passFrom tickets' (seq 0 L) st); simpl; [apply IH|done..].
Qed.

(** X10. The order of the tickets does not matter to [getOrdering], apart
    from the first ticket fixing the number of positions: on two lists that
    are permutations of each other and whose first tickets have the same
    number of values, it ends the same way with the same names. *)
Theorem getOrdering_ticket_order (fuel : nat) (tickets tickets' : list Ticket)
    (configs0 : list Configuration) :
  tickets ≡ₚ tickets' →
  (length ∘ Values) <$> head tickets = (length ∘ Values) <$> head tickets' →
  getOrdering fuel tickets configs0 = getOrdering fuel tickets' configs0.
Proof.
  intros Hperm Hhead. unfold getOrdering, getOrdering_run, firstTicket.
  rewrite <- !head_lookup.
  destruct (head tickets) as [t0|], (head tickets') as [t0'|];
    simpl in *; try done.
  injection Hhead as ->.
  by rewrite (resolveLoop_perm fuel tickets tickets').
Qed.

(** ** The reading loop and the sections *)

Lemma processLine_flags st line st1 m :
  Main.processLine st line = Done st1 →
  flags st = sectionFlags m →
  if isMarker line then flags st1 ≠ sectionFlags Constraints
                        ∧ ∃ m', flags st1 = sectionFlags m'
  else flags st1 = flags st.
Proof.
  unfold Main.processLine, isMarker. fold (isBlank line).
  destruct (isBlank line); simpl; [by intros [= <-]|].
  destruct (Go.HasPrefix line Main.YourTicket); simpl.
  { intros [= <-] _. split; [done|]. by exists OwnTicket. }
  destruct (Go.HasPrefix line Main.NearbyTickets); simpl.
  { intros [= <-] _. split; [done|]. by exists Nearby. }
  intros Hs _. unfold flags.
  destruct (Main.readConfiguration st) eqn:E1.
  { destruct (parseConfiguration line); [|done..]. simpl in Hs.
    injection Hs as <-. simpl. by rewrite ?E1. }
  destruct (Main.readYourTicket st) eqn:E2.
  { injection Hs as <-. simpl. by rewrite ?E1, ?E2. }
  destruct (Main.readNearbyTicket st) eqn:E3.
  - destruct (isValidTicket _ _) as [[] ?]; simpl in Hs; injection Hs as <-;
      simpl; by rewrite ?E1, ?E2, ?E3.
  - injection Hs as <-. by rewrite ?E1, ?E2, ?E3.
Qed.

(** X11. The three reading flags of [main] are exclusive: after any
    number of lines exactly one of them is set. [readConfiguration] is
    still set exactly when no marker line has been read; once a marker has
    been read the configuration section is never entered again. *)
Theorem readLines_flags (lines : list string) (st : Main.state) :
  Main.readLines lines Main.state_init = Done st →
  (∃ m, flags st = sectionFlags m)
  ∧ (Main.readConfiguration st = true ↔
     Forall (fun line => isMarker line = false) lines).
Proof.
  assert (∀ st0 m, flags st0 = sectionFlags m →
            Main.readLines lines st0 = Done st →
            (∃ m', flags st = sectionFlags m') ∧
            (m ≠ Constraints → flags st ≠ sectionFlags Constraints) ∧
            (m = Constraints →
             (flags st = sectionFlags Constraints ↔
              Forall (fun line => isMarker line = false) lines))) as Hgen.
  { induction lines as [|line rest IH]; intros st0 m Hfl Hrun; simpl in Hrun.
    - injection Hrun as <-. split; [eauto|]. split.
      + intros Hm. rewrite Hfl. by destruct m.
      + intros ->. split; [constructor|done].
    - destruct (Main.processLine st0 line) as [st1| |] eqn:Hs; [|done..].
      simpl in Hrun. pose proof (processLine_flags _ _ _ _ Hs Hfl) as Hstep.
      destruct (isMarker line) eqn:Em.
      + destruct Hstep as [Hnc [m' Hm']].
        destruct (IH st1 m' Hm' Hrun) as (Hone & Hstay & _).
        assert (m' ≠ Constraints) as Hm'c by (intros ->; done).
        split; [done|]. split; [intros _; by apply Hstay|].
        intros _. split; [intros Hc; by apply Hstay in Hc|].
        intros HF. apply Forall_cons in HF as [HF _]. congruence.
      + rewrite Hfl in Hstep.
        destruct (IH st1 m Hstep Hrun) as (Hone & Hstay & Hcfg).
        split; [done|]. split; [done|].
        intros Hm. rewrite (Hcfg Hm), Forall_cons. tauto. }
  intros Hrun. destruct (Hgen Main.state_init Constraints eq_refl Hrun)
    as (Hone & _ & Hcfg).
  split; [done|]. rewrite <- (Hcfg eq_refl).
  destruct Hone as [m Hm]. rewrite Hm. unfold flags in Hm.
  destruct m; simpl in *; injection Hm as -> _ _; split; congruence.
Qed.

Lemma readLines_blank lines st :
  Main.readLines lines st =
  Main.readLines (filter (fun line => isBlank line = false) lines) st.
Proof.
  revert st. induction lines as [|line rest IH]; intros st; [done|].
  rewrite filter_cons. destruct (isBlank line) eqn:Eb.
  - rewrite decide_False by done. simpl.
    unfold Main.processLine. fold (isBlank line). rewrite Eb. simpl. apply IH.
  - rewrite decide_True by done. simpl.
    destruct (Main.processLine st line); simpl; [apply IH|done..].
Qed.

(** X12. Blank lines carry nothing: [main] prints the same integers and
    ends the same way on the input with all its blank lines removed,
    wherever they stood. *)
Theorem main_ignores_blank_lines (fuel : nat) (lines : list string) :
  Main.main fuel lines =
  Main.main fuel (filter (fun line => isBlank line = false) lines).
Proof. unfold Main.main. by rewrite <- readLines_blank. Qed.

Lemma recordsOf_none cfgs entries :
  only OwnTicket entries = [] →
  (∀ line, line ∈ only Nearby entries →
           fst (isValidTicket (parseTicket line) cfgs) = false) →
  flat_map (recordsOf cfgs) entries = [].
Proof.
  induction entries as [|[m line] entries IH]; intros Hown Hnear; [done|].
  rewrite only_cons in Hown.
  assert (flat_map (recordsOf cfgs) entries = []) as IH'.
  { apply IH.
    - by destruct (decide (m = OwnTicket)).
    - intros l Hl. apply Hnear. rewrite only_cons.
      destruct (decide (m = Nearby)); [by right|done]. }
  simpl. rewrite IH', app_nil_r. destruct m; unfold recordsOf; simpl.
  - done.
  - by rewrite decide_True in Hown.
  - rewrite (Hnear line); [done|]. rewrite only_cons, decide_True by done.
    left.
Qed.

(** X13. When the constraint lines parse but the input has no line in the
    own-ticket section and no valid line in the nearby section (an empty
    input, for one), [main] prints the sum and then panics in
    [getOrdering], which reads [tickets[0]] of an empty list. *)
Theorem main_without_tickets_panics (fuel : nat) (lines : list string)
    (cfgs : list Configuration) :
  parseConfigurations (sectionOf Constraints lines) = Done cfgs →
  sectionOf OwnTicket lines = [] →
  (∀ line, line ∈ sectionOf Nearby lines →
           fst (isValidTicket (parseTicket line) cfgs) = false) →
  ∃ sum, Main.main fuel lines = ([sum], Panic).
Proof.
  intros Hcfg Hown Hnear.
  destruct (readLines_spec lines Constraints Main.state_init cfgs eq_refl Hcfg)
    as (st & Hrun & Hc & _ & Hv & _ & _).
  simpl in Hc, Hv. rewrite Hc in Hv.
  assert (Main.validNearbyTickets st = []) as Hnone.
  { rewrite Hv. by apply recordsOf_none. }
  exists (Main.sumValues (Main.invalidValues st)).
  unfold Main.main, Main.part2. rewrite Hrun, Hnone. reflexivity.
Qed.

Lemma passFrom_columns tickets ps st st' p :
  passFrom tickets ps st = Done st' → p ∈ ps →
  ∃ values, columnValues tickets p = Done values.
Proof.
  revert st. induction ps as [|q ps IH]; intros st Hrun Hin.
  { by apply elem_of_nil in Hin. }
  simpl in Hrun.
  destruct (scanPosition tickets q st) as [st1| |] eqn:Hs; [|done..].
  apply elem_of_cons in Hin as [->|Hin]; [by eapply scanPosition_column|].
  by eapply IH.
Qed.

(** A run that returns with configurations to resolve has read every
    column of every ticket. *)
Lemma getOrdering_run_wide fuel tickets configs0 st ticket0 :
  getOrdering_run fuel tickets configs0 = Done st →
  tickets !! 0%nat = Some ticket0 → configs0 ≠ [] →
  wide (length (Values ticket0)) tickets.
Proof.
  unfold getOrdering_run, firstTicket. intros Hrun H0 Hne.
  rewrite H0 in Hrun. simpl in Hrun.
  destruct configs0 as [|c0 cs]; [done|].
  destruct fuel as [|fuel]; [done|]. simpl in Hrun.
  destruct (pass tickets _ _) as [st1| |] eqn:Hp; [|done..].
  apply Forall_forall. intros t Ht.
  destruct (decide (length (Values ticket0) ≤ length (Values t))%nat);
    [done|exfalso].
  destruct (passFrom_columns _ _ _ _ (length (Values t)) Hp) as [values Hv].
  { apply elem_of_seq. lia. }
  rewrite (columnValues_short tickets _ t) in Hv; [done..|lia].
Qed.

(** X14. When the constraint lines parse, the own-ticket section has a
    line and [getOrdering] returns on the records [main] hands it, the
    program prints both integers and ends normally: the read of
    [myTicket.Values[idx]] is always within bounds. *)
Theorem main_exits_normally (fuel : nat) (lines : list string)
    (cfgs : list Configuration) (ordered : list string) :
  parseConfigurations (sectionOf Constraints lines) = Done cfgs →
  sectionOf OwnTicket lines ≠ [] →
  getOrdering fuel
    (flat_map (recordsOf cfgs) (sectionLines Constraints lines)) cfgs
    = Done ordered →
  ∃ sum mul, Main.main fuel lines = ([sum; mul], Done tt).
Proof.
  intros Hcfg Hown Hord.
  destruct (readLines_spec lines Constraints Main.state_init cfgs eq_refl Hcfg)
    as (st & Hrun & Hc & _ & Hv & _ & Hm).
  simpl in Hc, Hv, Hm. rewrite Hc in Hv.
  set (tickets := flat_map (recordsOf cfgs) (sectionLines Constraints lines)) in *.
  assert (Main.myTicket st ∈ tickets) as Hmine.
  { rewrite Hm. unfold ownTicket. fold (sectionOf OwnTicket lines).
    destruct (last (parseTicket <$> sectionOf OwnTicket lines)) as [t|] eqn:El.
    - simpl. apply last_Some_elem_of in El.
      apply list_elem_of_fmap in El as (line & -> & Hin).
      apply list_elem_of_In, in_flat_map. exists (OwnTicket, line).
      split; [|by left]. apply list_elem_of_In.
      unfold sectionOf, only in Hin.
      apply list_elem_of_fmap in Hin as ([sec' line'] & -> & Hin).
      apply list_elem_of_filter in Hin as [Heq Hin]. simpl in Heq. by subst.
    - apply last_None in El. apply fmap_nil_inv in El. done. }
  destruct (getOrdering_Done _ _ _ _ Hord) as (str & Hstr & ->).
  destruct (getOrdering_run_end _ _ _ _ Hstr) as (ticket0 & H0 & HI & Hnil).
  assert (∃ mul, Main.departureProduct (orderedFields str) 0
                   (Main.myTicket st) 1 = Done mul) as [mul Hmul].
  { destruct cfgs as [|c0 cs].
    - eexists. apply departureProduct_none. intros name Hin.
      unfold getOrdering_run, firstTicket in Hstr. rewrite H0 in Hstr.
      simpl in Hstr. destruct fuel; simpl in Hstr; injection Hstr as <-;
        simpl in Hin; apply elem_of_replicate in Hin as [-> _]; done.
    - eexists. apply departureProduct_spec. intros i name Hi _.
      pose proof (getOrdering_run_wide _ _ _ _ _ Hstr H0 ltac:(done)) as Hw.
      unfold wide in Hw. rewrite Forall_forall in Hw.
      specialize (Hw _ Hmine).
      apply lookup_lt_Some in Hi. rewrite (inv_length _ _ _ _ HI) in Hi.
      simpl. lia. }
  exists (Main.sumValues (Main.invalidValues st)), mul.
  unfold Main.main, Main.part2. rewrite Hrun, Hv, Hc, Hord. simpl.
  by rewrite Hmul.
Qed.

(** ** Strings *)

Lemma str_app_nil_l s : EmptyString +:+ s = s.
Proof. reflexivity. Qed.

Lemma str_app_cons a s t : String a s +:+ t = String a (s +:+ t).
Proof. reflexivity. Qed.

Lemma str_app_nil_r s : s +:+ EmptyString = s.
Proof. induction s as [|a s IH]; [done|]. by rewrite str_app_cons, IH. Qed.

Lemma str_app_assoc s t u : (s +:+ t) +:+ u = s +:+ (t +:+ u).
Proof. induction s as [|a s IH]; [done|]. by rewrite !str_app_cons, IH. Qed.

Lemma str_length_app s t :
  String.length (s +:+ t) = (String.length s + String.length t)%nat.
Proof.
  induction s as [|a s IH]; [done|]. rewrite str_app_cons. simpl. by rewrite IH.
Qed.

Lemma chars_app s t : chars (s +:+ t) = chars s ++ chars t.
Proof.
  induction s as [|a s IH]; [done|]. rewrite str_app_cons. unfold chars in *.
  simpl. by rewrite IH.
Qed.

Lemma chars_cons a s : chars (String a s) = a :: chars s.
Proof. reflexivity. Qed.

Lemma prefix_app t y : String.prefix t (t +:+ y) = true.
Proof.
  induction t as [|a t IH]; [by destruct y|]. rewrite str_app_cons. simpl.
  by destruct (ascii_dec a a).
Qed.

Lemma prefix_cons_ne a t b s : a ≠ b → String.prefix (String a t) (String b s) = false.
Proof. intros Hne. simpl. by destruct (ascii_dec a b). Qed.

(** ** [strings.Split] *)

Lemma splitFrom_skip sep t y cur :
  Go.splitFrom sep (t +:+ y) (String.length t) cur = Go.splitFrom sep y 0 cur.
Proof.
  induction t as [|a t IH]; [done|]. rewrite str_app_cons. simpl. apply IH.
Qed.

(** A piece without the first byte of the separator is not split. *)
Lemma splitFrom_lacks a t x cur :
  a ∉ chars x → Go.splitFrom (String a t) x 0 cur = [cur +:+ x].
Proof.
  revert cur. induction x as [|b x IH]; intros cur Hx.
  - simpl. by rewrite str_app_nil_r.
  - rewrite chars_cons in Hx. apply not_elem_of_cons in Hx as [Hne Hx].
    cbn [Go.splitFrom]. rewrite prefix_cons_ne by done.
    rewrite IH by done. by rewrite str_app_assoc.
Qed.

(** A piece without the first byte of the separator, then the separator. *)
Lemma splitFrom_piece a t x y cur :
  a ∉ chars x →
  Go.splitFrom (String a t) (x +:+ String a t +:+ y) 0 cur =
  (cur +:+ x) :: Go.splitFrom (String a t) y 0 EmptyString.
Proof.
  revert cur. induction x as [|b x IH]; intros cur Hx.
  - rewrite str_app_nil_l, str_app_nil_r, str_app_cons.
    cbn [Go.splitFrom].
    replace (String.prefix (String a t) (String a (t +:+ y))) with true
      by (symmetry; rewrite <- str_app_cons; apply prefix_app).
    lazy iota beta. f_equal.
    replace (String.length (String a t) - 1)%nat with (String.length t)
      by (simpl; lia).
    apply splitFrom_skip.
  - rewrite chars_cons in Hx. apply not_elem_of_cons in Hx as [Hne Hx].
    rewrite str_app_cons. cbn [Go.splitFrom]. rewrite prefix_cons_ne by done.
    rewrite IH by done. by rewrite str_app_assoc.
Qed.

(** Splitting a joined list of pieces gives the pieces back, when no piece
    holds the first byte of the separator. *)
Lemma Split_concat a t pieces :
  pieces ≠ [] → Forall (fun x => a ∉ chars x) pieces →
  Go.Split (String.concat (String a t) pieces) (String a t) = pieces.
Proof.
  unfold Go.Split. intros Hne HF.
  induction HF as [|x pieces Hx HF IH]; [done|].
  destruct pieces as [|x' pieces].
  - simpl. by rewrite splitFrom_lacks.
  - change (String.concat (String a t) (x :: x' :: pieces))
      with (x +:+ String a t +:+ String.concat (String a t) (x' :: pieces)).
    rewrite splitFrom_piece by done. rewrite str_app_nil_l. f_equal.
    by apply IH.
Qed.

Lemma splitFrom_char_length a s cur :
  length (Go.splitFrom (String a EmptyString) s 0 cur) = S (countChar a s).
Proof.
  unfold countChar. revert cur. induction s as [|b s IH]; intros cur; [done|].
  cbn [Go.splitFrom]. rewrite chars_cons, filter_cons.
  destruct (decide (b = a)) as [->|Hne].
  - change (String a s) with (String a EmptyString +:+ s) at 1.
    rewrite prefix_app. simpl. by rewrite IH.
  - rewrite prefix_cons_ne by done. apply IH.
Qed.

Lemma splitFrom_nonempty sep s skip cur : Go.splitFrom sep s skip cur ≠ [].
Proof.
  revert skip cur. induction s as [|b s IH]; intros skip cur; [done|].
  cbn [Go.splitFrom]. destruct skip; [|apply IH].
  destruct (String.prefix sep (String b s)); [done|apply IH].
Qed.

(** ** [strconv.Atoi] on decimal text *)

Lemma digit_pretty_char d :
  (d < 10)%N → Go.digit (pretty_N_char d) = Some (Z.of_N d).
Proof.
  intros Hd.
  assert (d = 0 ∨ d = 1 ∨ d = 2 ∨ d = 3 ∨ d = 4 ∨ d = 5 ∨ d = 6 ∨ d = 7
          ∨ d = 8 ∨ d = 9)%N as H by lia.
  repeat (destruct H as [->|H]; [reflexivity|]). by subst.
Qed.

Lemma pretty_char_not_sign d :
  (d < 10)%N →
  Ascii.eqb (pretty_N_char d) "-" = false
  ∧ Ascii.eqb (pretty_N_char d) "+" = false.
Proof.
  intros Hd.
  assert (d = 0 ∨ d = 1 ∨ d = 2 ∨ d = 3 ∨ d = 4 ∨ d = 5 ∨ d = 6 ∨ d = 7
          ∨ d = 8 ∨ d = 9)%N as H by lia.
  repeat (destruct H as [->|H]; [done|]). by subst.
Qed.

Lemma parseDigits_step c d s n :
  Go.digit c = Some d → 0 ≤ d ≤ 9 → 0 ≤ n →
  Go.parseDigits (String c s) n =
  if decide (n * 10 + d ≤ Go.maxUint64) then Go.parseDigits s (n * 10 + d)
  else Go.UintRange.
Proof.
  intros Hd Hr Hn. cbn [Go.parseDigits]. rewrite Hd.
  change Go.maxUint64 with 18446744073709551615.
  change (18446744073709551615 / 10 + 1) with 1844674407370955162.
  destruct (Z.geb_spec n 1844674407370955162).
  - rewrite decide_False; [done|lia].
  - destruct (Z.gtb_spec (n * 10 + d) 18446744073709551615).
    + rewrite decide_False; [done|lia].
    + rewrite decide_True; [done|lia].
Qed.

Lemma parseDigits_pretty_go (x : N) : ∀ s,
  (0 < x)%N →
  Go.parseDigits (pretty_N_go x s) 0 =
  if decide (Z.of_N x ≤ Go.maxUint64) then Go.parseDigits s (Z.of_N x)
  else Go.UintRange.
Proof.
  induction (N.lt_wf_0 x) as [x _ IH]. intros s Hx.
  rewrite pretty_N_go_step by done.
  pose proof (N2Z.inj_div x 10) as Hdiv. pose proof (N2Z.inj_mod x 10) as Hmod.
  pose proof (Z.div_mod (Z.of_N x) 10 ltac:(done)) as Hdm.
  pose proof (Z.mod_pos_bound (Z.of_N x) 10 ltac:(done)) as Hb.
  change (Z.of_N 10) with 10 in *.
  assert (x `mod` 10 < 10)%N as Hlt by (by apply N.mod_lt).
  pose proof (digit_pretty_char _ Hlt) as Hdig.
  destruct (decide (x `div` 10 = 0)%N) as [H0|H0].
  - rewrite H0, pretty_N_go_0.
    rewrite (parseDigits_step _ _ _ _ Hdig) by lia.
    rewrite H0 in Hdiv. change (Z.of_N 0) with 0 in Hdiv.
    replace (0 * 10 + Z.of_N (x `mod` 10)) with (Z.of_N x) by lia. done.
  - assert (0 < x `div` 10)%N as Hq0 by lia.
    assert (x `div` 10 < x)%N as Hqx by (apply N.div_lt; [done|lia]).
    rewrite (IH _ Hqx _ Hq0).
    change Go.maxUint64 with 18446744073709551615 in *.
    destruct (decide (Z.of_N (x `div` 10) ≤ 18446744073709551615)) as [Hq|Hq].
    + rewrite (parseDigits_step _ _ _ _ Hdig) by lia.
      change Go.maxUint64 with 18446744073709551615.
      replace (Z.of_N (x `div` 10) * 10 + Z.of_N (x `mod` 10))
        with (Z.of_N x) by lia.
      done.
    + rewrite decide_False; [done|lia].
Qed.

Lemma pretty_go_head (x : N) : ∀ s,
  (0 < x)%N →
  ∃ d s', (d < 10)%N ∧ pretty_N_go x s = String (pretty_N_char d) s'.
Proof.
  induction (N.lt_wf_0 x) as [x _ IH]. intros s Hx.
  rewrite pretty_N_go_step by done.
  destruct (decide (x `div` 10 = 0)%N) as [H0|H0].
  - rewrite H0, pretty_N_go_0. eexists _, _. split; [|done].
    by apply N.mod_lt.
  - apply IH; [apply N.div_lt; [done|lia]|by apply N.neq_0_lt_0].
Qed.

Lemma pretty_go_digits (x : N) : ∀ s,
  Forall digitChar (chars s) → Forall digitChar (chars (pretty_N_go x s)).
Proof.
  induction (N.lt_wf_0 x) as [x _ IH]. intros s Hs.
  destruct (decide (x = 0)%N) as [->|Hx]; [by rewrite pretty_N_go_0|].
  rewrite pretty_N_go_step by lia. apply IH; [apply N.div_lt; lia|].
  rewrite chars_cons. constructor; [|done].
  unfold digitChar. rewrite digit_pretty_char; [done|]. by apply N.mod_lt.
Qed.

Lemma pretty_nonneg_digits z : 0 ≤ z → Forall digitChar (chars (pretty z)).
Proof.
  intros Hz. destruct z as [|p|p]; [|..|lia].
  - repeat constructor. by eexists.
  - change (pretty (Z.pos p)) with (pretty_N_go (N.pos p) EmptyString).
    apply pretty_go_digits. constructor.
Qed.

Lemma clamp_in_range z : GoInt.in_range z → clamp z = z.
Proof. unfold clamp, GoInt.in_range. lia. Qed.

(** [Atoi] reads a decimal numeral back, up to the bounds of [int]. *)
Lemma Atoi_pretty z : Go.Atoi (pretty z) = clamp z.
Proof.
  unfold clamp, GoInt.min_int, GoInt.max_int. destruct z as [|p|p].
  - reflexivity.
  - change (pretty (Z.pos p)) with (pretty_N_go (N.pos p) EmptyString).
    destruct (pretty_go_head (N.pos p) EmptyString) as (d & s' & Hd & Hs);
      [done|].
    pose proof (parseDigits_pretty_go (N.pos p) EmptyString ltac:(done)) as Hp.
    rewrite Hs in Hp |- *. destruct (pretty_char_not_sign d Hd) as [Hm Hpl].
    unfold Go.Atoi, Go.ParseUint. lazy beta iota zeta.
    rewrite Hm, Hpl. cbn [orb negb andb]. lazy beta iota.
    rewrite Hp. change (Z.of_N (N.pos p)) with (Z.pos p).
    change Go.maxUint64 with 18446744073709551615.
    unfold GoInt.max_int, GoInt.min_int.
    destruct (decide (Z.pos p ≤ 18446744073709551615)); cbn [Go.parseDigits].
    + change (2 ^ 63) with 9223372036854775808.
      destruct (Z.geb_spec (Z.pos p) 9223372036854775808); lia.
    + lia.
  - change (pretty (Z.neg p))
      with (String "-" (pretty_N_go (N.pos p) EmptyString)).
    destruct (pretty_go_head (N.pos p) EmptyString) as (d & s' & Hd & Hs);
      [done|].
    pose proof (parseDigits_pretty_go (N.pos p) EmptyString ltac:(done)) as Hp.
    rewrite Hs in Hp |- *.
    unfold Go.Atoi, Go.ParseUint. lazy beta iota zeta.
    change (Ascii.eqb "-" "+") with false.
    change (Ascii.eqb "-" "-") with true. cbn [orb negb andb].
    lazy beta iota.
    rewrite Hp. change (Z.of_N (N.pos p)) with (Z.pos p).
    change Go.maxUint64 with 18446744073709551615.
    unfold GoInt.max_int, GoInt.min_int.
    destruct (decide (Z.pos p ≤ 18446744073709551615)); cbn [Go.parseDigits].
    + change (2 ^ 63) with 9223372036854775808.
      destruct (Z.gtb_spec (Z.pos p) 9223372036854775808); lia.
    + lia.
Qed.

Lemma digit_nonneg c d : Go.digit c = Some d → 0 ≤ d ≤ 9.
Proof.
  unfold Go.digit. destruct (andb _ _) eqn:E; [|done]. intros [= <-].
  apply andb_true_iff in E as [E1 E2].
  apply Z.leb_le in E1. apply Z.leb_le in E2. lia.
Qed.

Lemma parseDigits_nonneg s : ∀ n un,
  0 ≤ n → Go.parseDigits s n = Go.UintOk un → 0 ≤ un.
Proof.
  induction s as [|c s IH]; intros n un Hn; cbn [Go.parseDigits].
  - by intros [= <-].
  - destruct (Go.digit c) as [d|] eqn:Hd; [|done].
    apply digit_nonneg in Hd.
    destruct (n >=? Go.maxUint64 / 10 + 1); [done|].
    destruct (n * 10 + d >? Go.maxUint64); [done|].
    apply IH. lia.
Qed.

Lemma Atoi_in_range s : GoInt.in_range (Go.Atoi s).
Proof.
  unfold GoInt.in_range, Go.Atoi, GoInt.min_int, GoInt.max_int.
  destruct s as [|c s]; [lia|]. lazy zeta.
  destruct (Go.ParseUint _) as [un| |] eqn:Hp.
  - assert (0 ≤ un) as Hun.
    { unfold Go.ParseUint in Hp.
      match type of Hp with
      | match ?digits with EmptyString => _ | String _ _ => _ end = _ =>
          destruct digits; [done|]
      end.
      by eapply parseDigits_nonneg; [|exact Hp]. }
    change (2 ^ 63) with 9223372036854775808.
    destruct (Ascii.eqb c "-"); cbn [negb andb].
    + destruct (Z.gtb_spec un 9223372036854775808); lia.
    + destruct (Z.geb_spec un 9223372036854775808); lia.
  - lia.
  - destruct (Ascii.eqb c "-"); lia.
Qed.

(** X15. [parseTicket] never fails and never returns an empty ticket: it
    yields one value more than the text has commas (one value, 0, for the
    empty text), and every value is a Go [int]. *)
Theorem parseTicket_shape (ticketData : string) :
  length (Values (parseTicket ticketData)) = S (countChar "," ticketData)
  ∧ Forall GoInt.in_range (Values (parseTicket ticketData))
  ∧ parseTicket EmptyString = mkTicket [0].
Proof.
  split; [|split; [|done]].
  - unfold parseTicket, Go.Split. simpl. rewrite length_fmap.
    apply splitFrom_char_length.
  - unfold parseTicket. simpl. apply Forall_fmap, Forall_forall.
    intros x _. apply Atoi_in_range.
Qed.

(** ** Text that parses back *)

Lemma pretty_chars (z : Z) :
  Forall (fun c => digitChar c ∨ c = "-"%char) (chars (pretty z)).
Proof.
  destruct z as [|p|p].
  - eapply Forall_impl; [apply (pretty_nonneg_digits 0); lia|]. tauto.
  - eapply Forall_impl; [apply (pretty_nonneg_digits (Z.pos p)); lia|]. tauto.
  - change (pretty (Z.neg p))
      with (String "-" (pretty_N_go (N.pos p) EmptyString)).
    rewrite chars_cons. constructor; [by right|].
    eapply Forall_impl; [apply pretty_go_digits; constructor|]. tauto.
Qed.

Lemma pretty_lacks (z : Z) a :
  ¬ digitChar a → a ≠ "-"%char → a ∉ chars (pretty z).
Proof.
  intros Hd Hm Hin. pose proof (pretty_chars z) as HF.
  rewrite Forall_forall in HF. destruct (HF a Hin); tauto.
Qed.

Lemma pretty_nonneg_lacks (z : Z) a : 0 ≤ z → ¬ digitChar a → a ∉ chars (pretty z).
Proof.
  intros Hz Hd Hin. pose proof (pretty_nonneg_digits z Hz) as HF.
  rewrite Forall_forall in HF. by apply Hd, HF.
Qed.

Lemma clamp_fmap vs : Forall GoInt.in_range vs → clamp <$> vs = vs.
Proof.
  induction 1 as [|z vs Hz _ IH]; [done|].
  by rewrite fmap_cons, clamp_in_range, IH.
Qed.

Lemma parseTicket_text (t : Ticket) :
  Values t ≠ [] →
  parseTicket (ticketText t) = mkTicket (clamp <$> Values t)
  ∧ (Forall GoInt.in_range (Values t) → parseTicket (ticketText t) = t).
Proof.
  intros Hne.
  assert (parseTicket (ticketText t) = mkTicket (clamp <$> Values t)) as Hp.
  { unfold parseTicket, ticketText. f_equal.
    change ","%string with (String "," EmptyString).
    rewrite Split_concat.
    - rewrite <- list_fmap_compose. apply list_fmap_ext.
      intros i z _. apply Atoi_pretty.
    - by destruct (Values t).
    - apply Forall_fmap, Forall_forall. intros z _. simpl.
      apply pretty_lacks; [|done]. intros [d Hd]. by vm_compute in Hd. }
  split; [done|]. intros Hr. rewrite Hp. destruct t as [vs]. simpl in *.
  f_equal. by apply clamp_fmap.
Qed.

(** X16. A ticket written in the input format parses back: the decimal
    numerals of a non-empty list of values, joined by commas, give these
    values again, each brought to the nearest Go [int]; so a ticket of
    [int]s is read back exactly. *)
Theorem parseTicket_ticketText (t : Ticket) :
  Values t ≠ [] →
  parseTicket (ticketText t) = mkTicket (clamp <$> Values t)
  ∧ (Forall GoInt.in_range (Values t) → parseTicket (ticketText t) = t).
Proof. apply parseTicket_text. Qed.

(** ** [strings.Index] and the slice expressions *)

Lemma index_char_lacks a s :
  a ∉ chars s → String.index 0 (String a EmptyString) s = None.
Proof.
  induction s as [|b s IH]; intros Hs; [done|].
  rewrite chars_cons in Hs. apply not_elem_of_cons in Hs as [Hne Hs].
  cbn [String.index]. rewrite prefix_cons_ne by done. by rewrite IH.
Qed.

Lemma index_char_app a x y :
  a ∉ chars x →
  String.index 0 (String a EmptyString) (x +:+ String a y)
  = Some (String.length x).
Proof.
  induction x as [|b x IH]; intros Hx.
  - rewrite str_app_nil_l. cbn [String.index].
    change (String a y) with (String a EmptyString +:+ y).
    by rewrite prefix_app.
  - rewrite chars_cons in Hx. apply not_elem_of_cons in Hx as [Hne Hx].
    rewrite str_app_cons. cbn [String.index].
    rewrite prefix_cons_ne by done. by rewrite IH.
Qed.

(** The first instance of a byte splits the string around it. *)
Lemma index_char_Some a s n :
  String.index 0 (String a EmptyString) s = Some n →
  ∃ x y, s = x +:+ String a y ∧ (a ∉ chars x) ∧ n = String.length x.
Proof.
  revert n. induction s as [|b s IH]; intros n; [done|].
  cbn [String.index]. destruct (decide (a = b)) as [<-|Hne].
  - change (String a s) with (String a EmptyString +:+ s) at 1.
    rewrite prefix_app. intros [= <-]. exists EmptyString, s.
    split; [done|]. split; [|done]. apply not_elem_of_nil.
  - rewrite prefix_cons_ne by done.
    destruct (String.index 0 _ s) as [m|] eqn:Hm; [|done]. intros [= <-].
    destruct (IH m eq_refl) as (x & y & -> & Hx & ->).
    exists (String b x), y. split; [done|]. split; [|done].
    rewrite chars_cons. apply not_elem_of_cons. split; [congruence|done].
Qed.

Lemma substring_all y : String.substring 0 (String.length y) y = y.
Proof. induction y as [|c y IH]; [done|]. simpl. by rewrite IH. Qed.

Lemma substring_prefix x y :
  String.substring 0 (String.length x) (x +:+ y) = x.
Proof.
  induction x as [|c x IH]; [by destruct y|].
  rewrite str_app_cons. simpl. by rewrite IH.
Qed.

Lemma substring_suffix x y :
  String.substring (String.length x) (String.length y) (x +:+ y) = y.
Proof.
  induction x as [|c x IH]; [apply substring_all|].
  rewrite str_app_cons. simpl. apply IH.
Qed.

Lemma sliceTo_prefix x y :
  Go.sliceTo (x +:+ y) (Z.of_nat (String.length x)) = Done x.
Proof.
  unfold Go.sliceTo. rewrite str_length_app, Nat2Z.id, substring_prefix.
  destruct (andb _ _) eqn:E; [done|].
  apply andb_false_iff in E as [E|E]; apply Z.leb_gt in E; lia.
Qed.

Lemma sliceFrom_suffix x y :
  Go.sliceFrom (x +:+ y) (Z.of_nat (String.length x)) = Done y.
Proof.
  unfold Go.sliceFrom. rewrite str_length_app, Nat2Z.id.
  replace (String.length x + String.length y - String.length x)%nat
    with (String.length y) by lia.
  rewrite substring_suffix.
  destruct (andb _ _) eqn:E; [done|].
  apply andb_false_iff in E as [E|E]; apply Z.leb_gt in E; lia.
Qed.

(** ** Configurations that parse back *)

Lemma Split_rangeText lo hi :
  0 ≤ lo → 0 ≤ hi →
  Go.Split (rangeText (mkValidRange lo hi)) "-" = [pretty lo; pretty hi].
Proof.
  intros Hlo Hhi. unfold rangeText, Go.Split. simpl.
  assert (∀ z : Z, 0 ≤ z → "-"%char ∉ chars (pretty z)) as Hd.
  { intros z Hz. apply pretty_nonneg_lacks; [done|].
    intros [d H]. by vm_compute in H. }
  change "-"%string with (String "-" EmptyString).
  rewrite splitFrom_piece by auto. rewrite splitFrom_lacks by auto. done.
Qed.

Lemma parseRanges_rangeText rs :
  Forall (fun r => 0 ≤ Min r ≤ GoInt.max_int ∧ 0 ≤ Max r ≤ GoInt.max_int) rs →
  parseRanges (rangeText <$> rs) = Done rs.
Proof.
  induction 1 as [|[lo hi] rs [Hlo Hhi] _ IH]; [done|]. simpl in Hlo, Hhi.
  rewrite fmap_cons. cbn [parseRanges].
  rewrite Split_rangeText by lia. simpl. rewrite IH. simpl.
  rewrite !Atoi_pretty, !clamp_in_range; [done|..];
    unfold GoInt.in_range, GoInt.min_int; lia.
Qed.

Lemma rangeText_lacks_space r :
  0 ≤ Min r → 0 ≤ Max r → " "%char ∉ chars (rangeText r).
Proof.
  intros Hlo Hhi. unfold rangeText. rewrite !chars_app.
  assert (∀ z : Z, 0 ≤ z → " "%char ∉ chars (pretty z)) as Hd.
  { intros z Hz. apply pretty_nonneg_lacks; [done|].
    intros [d H]. by vm_compute in H. }
  intros Hin. apply elem_of_app in Hin as [Hin|Hin];
    [exact (Hd _ Hlo Hin)|].
  apply elem_of_app in Hin as [Hin|Hin]; [|exact (Hd _ Hhi Hin)].
  apply list_elem_of_singleton in Hin. done.
Qed.

Lemma parseConfiguration_text (c : Configuration) :
  ":"%char ∉ chars (Field c) →
  Ranges c ≠ [] →
  Forall (fun r => 0 ≤ Min r ≤ GoInt.max_int ∧ 0 ≤ Max r ≤ GoInt.max_int)
         (Ranges c) →
  parseConfiguration (configText c) = Done c.
Proof.
  intros Hname Hne Hr. destruct c as [name rs]. simpl in *.
  unfold parseConfiguration, configText. simpl.
  set (body := String.concat " or " (rangeText <$> rs)).
  change (": " +:+ body) with (String ":" (String " " body)).
  unfold Go.Index. change ":"%string with (String ":" EmptyString).
  rewrite index_char_app by done.
  rewrite sliceTo_prefix. simpl.
  replace (name +:+ String ":" (String " " body))
    with ((name +:+ ": ") +:+ body)
    by (by rewrite str_app_assoc).
  replace (Z.of_nat (String.length name) + 2)
    with (Z.of_nat (String.length (name +:+ ": ")))
    by (rewrite str_length_app; simpl; lia).
  rewrite sliceFrom_suffix. simpl. subst body.
  change " or "%string with (String " " "or ").
  rewrite Split_concat.
  - by rewrite parseRanges_rangeText.
  - by destruct rs.
  - apply Forall_fmap. eapply Forall_impl; [exact Hr|].
    intros r [Hlo Hhi]. simpl. apply rangeText_lacks_space; lia.
Qed.

(** X17. A configuration written in the input format parses back: for a
    name without a colon and at least one range, all with bounds between 0
    and the largest [int], [parseConfiguration] on
    [name: lo-hi or lo-hi ...] returns that configuration. *)
Theorem parseConfiguration_configText (c : Configuration) :
  ":"%char ∉ chars (Field c) →
  Ranges c ≠ [] →
  Forall (fun r => 0 ≤ Min r ≤ GoInt.max_int ∧ 0 ≤ Max r ≤ GoInt.max_int)
         (Ranges c) →
  parseConfiguration (configText c) = Done c.
Proof. apply parseConfiguration_text. Qed.

(** ** Lines that do not parse *)

Lemma splitFrom_chars sep s : ∀ skip cur x,
  x ∈ Go.splitFrom sep s skip cur →
  ∀ c, c ∈ chars x → c ∈ chars cur ∨ c ∈ chars s.
Proof.
  induction s as [|b s IH]; intros skip cur x Hx c Hc.
  - simpl in Hx. apply list_elem_of_singleton in Hx as ->. by left.
  - cbn [Go.splitFrom] in Hx. rewrite chars_cons. destruct skip as [|k].
    + destruct (String.prefix sep (String b s)).
      * apply elem_of_cons in Hx as [->|Hx]; [by left|].
        destruct (IH _ _ _ Hx c Hc) as [H|H]; [by apply elem_of_nil in H|].
        right. by right.
      * destruct (IH _ _ _ Hx c Hc) as [H|H]; [|right; by right].
        rewrite chars_app in H. apply elem_of_app in H as [H|H]; [by left|].
        apply list_elem_of_singleton in H as ->. right. left.
    + destruct (IH _ _ _ Hx c Hc) as [H|H]; [by left|right; by right].
Qed.

Lemma parseRanges_Done pieces rs :
  parseRanges pieces = Done rs →
  length rs = length pieces ∧ Forall (fun x => "-"%char ∈ chars x) pieces.
Proof.
  revert rs. induction pieces as [|x pieces IH]; intros rs; cbn [parseRanges].
  - intros [= <-]. split; [done|constructor].
  - destruct (Go.Split x "-" !! 0%nat) as [lo|]; [|done].
    destruct (Go.Split x "-" !! 1%nat) as [hi|] eqn:Hhi; [|done].
    destruct (parseRanges pieces) as [rs'| |]; [|done..]. simpl.
    intros [= <-]. destruct (IH rs' eq_refl) as [Hlen HF]. split.
    + simpl. by rewrite Hlen.
    + constructor; [|done].
      destruct (decide ("-"%char ∈ chars x)) as [|Hn]; [done|exfalso].
      unfold Go.Split in Hhi. change "-"%string with (String "-" EmptyString) in Hhi.
      by rewrite splitFrom_lacks in Hhi.
Qed.

(** X18. [parseConfiguration] panics on a line without a colon. When it
    returns, the name is the text before the first colon of the line, there
    is at least one range, and the text after the colon holds a dash: a
    line whose range list has no ["-"] does not parse. *)
Theorem parseConfiguration_shape (line : string) :
  (":"%char ∉ chars line → parseConfiguration line = Panic)
  ∧ ∀ c, parseConfiguration line = Done c →
      ∃ rest, line = Field c +:+ ":" +:+ rest
              ∧ (":"%char ∉ chars (Field c))
              ∧ Ranges c ≠ []
              ∧ "-"%char ∈ chars rest.
Proof.
  split.
  - intros Hno. unfold parseConfiguration, Go.Index.
    change ":"%string with (String ":" EmptyString).
    by rewrite index_char_lacks.
  - intros c. unfold parseConfiguration, Go.Index.
    change ":"%string with (String ":" EmptyString).
    destruct (String.index 0 _ line) as [n|] eqn:Hi; [|done].
    apply index_char_Some in Hi as (x & y & -> & Hx & ->).
    rewrite sliceTo_prefix. simpl.
    destruct y as [|b y].
    { unfold Go.sliceFrom. rewrite str_length_app. simpl.
      destruct (andb _ _) eqn:E; [|done].
      apply andb_true_iff in E as [_ E]. apply Z.leb_le in E. lia. }
    replace (x +:+ String ":" (String b y))
      with ((x +:+ String ":" (String b EmptyString)) +:+ y)
      by (by rewrite str_app_assoc).
    replace (Z.of_nat (String.length x) + 2)
      with (Z.of_nat (String.length (x +:+ String ":" (String b EmptyString))))
      by (rewrite str_length_app; simpl; lia).
    rewrite sliceFrom_suffix. simpl.
    destruct (parseRanges _) as [rs| |] eqn:Hrs; [|done..]. simpl.
    intros [= <-]. simpl. exists (String b y).
    split; [by rewrite str_app_assoc|]. split; [done|].
    apply parseRanges_Done in Hrs as [Hlen HF].
    pose proof (splitFrom_nonempty " or " y 0 EmptyString) as Hne.
    unfold Go.Split in *.
    destruct (Go.splitFrom " or " y 0 EmptyString) as [|piece pieces] eqn:Hsp;
      [done|].
    split; [by destruct rs|].
    apply Forall_cons in HF as [Hdash _].
    destruct (splitFrom_chars " or " y 0 EmptyString piece) with (c := "-"%char)
      as [H|H]; [rewrite Hsp; left|done|by apply elem_of_nil in H|].
    rewrite chars_cons. by right.
Qed.

(** X19. Of the pieces that ["-"] cuts a range into, only the first two are
    read: whatever follows a second dash is dropped. In particular the
    lower bound of a range written with a minus sign is the empty piece,
    which reads as 0, and its upper bound is the number after the sign. *)
Theorem parseRanges_extra_dash (a b rest : string) :
  "-"%char ∉ chars a → "-"%char ∉ chars b →
  parseRanges [a +:+ "-" +:+ b +:+ "-" +:+ rest]
    = Done [mkValidRange (Go.Atoi a) (Go.Atoi b)]
  ∧ parseRanges ["-" +:+ b +:+ "-" +:+ rest]
    = Done [mkValidRange 0 (Go.Atoi b)].
Proof.
  intros Ha Hb.
  assert (∀ a', "-"%char ∉ chars a' →
            parseRanges [a' +:+ "-" +:+ b +:+ "-" +:+ rest]
            = Done [mkValidRange (Go.Atoi a') (Go.Atoi b)]) as Hgen.
  { intros a' Ha'. cbn [parseRanges]. unfold Go.Split.
    change "-"%string with (String "-" EmptyString).
    rewrite splitFrom_piece by done. rewrite splitFrom_piece by done.
    simpl. done. }
  split; [by apply Hgen|].
  rewrite <- (str_app_nil_l ("-" +:+ b +:+ "-" +:+ rest)).
  rewrite (Hgen EmptyString); [done|]. apply not_elem_of_nil.
Qed.

Example parseConfiguration_negative_bound :
  parseConfiguration "row: -5-10" =
  Done (mkConfiguration "row" [mkValidRange 0 5]).
Proof. reflexivity. Qed.

(** ** The number of passes *)

(** X20. [getOrdering] returns within as many passes as there are
    configurations, or not at all: if it returns for some fuel, it returns
    the same names when the fuel is the number of configurations. *)
Theorem getOrdering_passes_bound (fuel : nat) (tickets : list Ticket)
    (configs0 : list Configuration) (fields : list string) :
  getOrdering fuel tickets configs0 = Done fields →
  getOrdering (length configs0) tickets configs0 = Done fields.
Proof.
  intros Hrun. destruct (getOrdering_Done _ _ _ _ Hrun) as (st & Hst & ->).
  destruct (getOrdering_run_end _ _ _ _ Hst) as (ticket0 & H0 & _ & _).
  set (L := length (Values ticket0)).
  assert (resolveLoop fuel tickets L (resolver_init L configs0) = Done st)
    as Hloop.
  { unfold getOrdering_run, firstTicket in Hst. by rewrite H0 in Hst. }
  assert (resolveLoop (length configs0) tickets L (resolver_init L configs0)
          = Done st) as Hbound.
  { destruct configs0 as [|c0 cs] eqn:Ecs.
    - destruct fuel; simpl in Hloop |- *; done.
    - rewrite <- Ecs in *.
      assert (configs0 ≠ []) as Hne by (by rewrite Ecs).
      pose proof (getOrdering_run_wide _ _ _ _ _ Hst H0 Hne) as Hw.
      destruct (resolveLoop_steps _ _ _ _ _ Hloop) as (evs & Hsteps & Hnil).
      pose proof (steps_eliminable _ _ _ _ _ Hsteps []) as Hel.
      rewrite Hnil in Hel. specialize (Hel eq_refl). simpl in Hel.
      apply eliminable_Elim in Hel.
      destruct (resolveLoop_terminates tickets L configs0 Hw Hel
                  (length configs0) (resolver_init L configs0))
        as [st' Hst']; [done..|].
      destruct (decide (fuel ≤ length configs0)%nat) as [Hle|Hgt].
      + by apply (resolveLoop_fuel_mono _ _ _ _ _ Hloop).
      + pose proof (resolveLoop_fuel_mono _ _ _ _ _ Hst' fuel ltac:(lia)) as H.
        congruence. }
  unfold getOrdering, getOrdering_run, firstTicket. rewrite H0. simpl.
  fold L. by rewrite Hbound.
Qed.

(** ** The whole program on a written input *)

Lemma sectionLines_data m ls rest :
  Forall dataLine ls →
  sectionLines m (ls ++ rest) = (pair m <$> ls) ++ sectionLines m rest.
Proof.
  induction 1 as [|line ls [Hb Hm] _ IH]; [done|].
  simpl. unfold isMarker in Hm. rewrite Hb in Hm |- *. simpl in Hm.
  apply orb_false_iff in Hm as [-> ->]. by rewrite IH.
Qed.

Lemma sectionLines_data_all m ls :
  Forall dataLine ls → sectionLines m ls = pair m <$> ls.
Proof.
  intros H. rewrite <- (app_nil_r ls) at 1.
  rewrite sectionLines_data by done. simpl. by rewrite app_nil_r.
Qed.

Lemma only_app sec e1 e2 : only sec (e1 ++ e2) = only sec e1 ++ only sec e2.
Proof. unfold only. by rewrite filter_app, fmap_app. Qed.

Lemma only_pair sec m ls :
  only sec (pair m <$> ls) = if decide (m = sec) then ls else [].
Proof.
  induction ls as [|l ls IH]; [by destruct (decide _)|].
  rewrite fmap_cons, only_cons, IH. by destruct (decide (m = sec)).
Qed.

Lemma pretty_head (z : Z) :
  ∃ c s', pretty z = String c s' ∧ (digitChar c ∨ c = "-"%char).
Proof.
  pose proof (pretty_chars z) as HF.
  destruct (pretty z) as [|c s'] eqn:E.
  - exfalso. destruct z as [|p|p]; [done| |done].
    change (pretty (Z.pos p)) with (pretty_N_go (N.pos p) EmptyString) in E.
    destruct (pretty_go_head (N.pos p) EmptyString) as (d & s' & _ & Hs);
      [done|]. congruence.
  - exists c, s'. split; [done|]. rewrite chars_cons in HF.
    by apply Forall_cons in HF as [? _].
Qed.

Lemma ticketText_data t : Values t ≠ [] → dataLine (ticketText t).
Proof.
  destruct t as [[|z vs]]; [done|]. intros _. unfold ticketText.
  cbn [Values]. rewrite fmap_cons.
  destruct (pretty_head z) as (c & s' & Hz & Hc).
  assert (∃ s'', String.concat "," (pretty z :: (pretty <$> vs)) = String c s'')
    as [s'' ->].
  { destruct vs as [|z' vs]; simpl; rewrite Hz; [eauto|].
    rewrite str_app_cons. eauto. }
  assert ("y"%char ≠ c ∧ "n"%char ≠ c) as [Hy Hn].
  { split; intros <-; (destruct Hc as [[d Hd]|Hc];
      [by vm_compute in Hd|done]). }
  unfold dataLine, isMarker, isBlank, Go.HasPrefix.
  change Main.YourTicket with (String "y" "our ticket").
  change Main.NearbyTickets with (String "n" "earby tickets").
  by rewrite !prefix_cons_ne by done.
Qed.

Lemma configText_data c : wellFormedConfig c → dataLine (configText c).
Proof.
  intros (_ & _ & _ & Hm). split; [|done].
  unfold isBlank, configText. rewrite !str_length_app. simpl.
  apply Nat.eqb_neq. lia.
Qed.

Lemma parseConfigurations_text cfgs :
  Forall wellFormedConfig cfgs →
  parseConfigurations (configText <$> cfgs) = Done cfgs.
Proof.
  induction 1 as [|c cfgs (Hn & Hne & Hr & _) _ IH]; [done|].
  rewrite fmap_cons. cbn [parseConfigurations].
  by rewrite parseConfiguration_text, IH.
Qed.

Lemma recordsOf_constraints cfgs ls :
  flat_map (recordsOf cfgs) (pair Constraints <$> ls) = []
  ∧ flat_map (rejectsOf cfgs) (pair Constraints <$> ls) = [].
Proof.
  induction ls as [|l ls [IH1 IH2]]; [done|].
  rewrite fmap_cons. cbn [flat_map]. by rewrite IH1, IH2.
Qed.

Lemma recordsOf_nearby cfgs nearby :
  Forall wellFormedTicket nearby →
  flat_map (recordsOf cfgs) (pair Nearby <$> (ticketText <$> nearby))
    = filter (fun t => Forall (covered cfgs) (Values t)) nearby
  ∧ flat_map (rejectsOf cfgs) (pair Nearby <$> (ticketText <$> nearby))
    = flat_map (fun t => uncovered cfgs (Values t)) nearby.
Proof.
  induction 1 as [|t nearby [Hne Hr] _ [IH1 IH2]]; [done|].
  rewrite !fmap_cons. cbn [flat_map]. rewrite IH1, IH2.
  unfold recordsOf, rejectsOf. simpl.
  destruct (parseTicket_text t Hne) as [_ Hback]. rewrite (Hback Hr).
  rewrite isValidTicket_snd. split; [|done].
  rewrite filter_cons.
  pose proof (isValidTicket_fst t cfgs) as Hfst.
  destruct (fst (isValidTicket t cfgs)).
  - rewrite decide_True; [done|]. by apply Hfst.
  - rewrite decide_False; [done|]. intros HF. by apply Hfst in HF.
Qed.

(** X21. On an input written from well-formed configurations, an own
    ticket and nearby tickets, [main] computes on exactly these data: it
    prints the Go sum of the uncovered values of the nearby tickets, then
    runs [getOrdering] on the own ticket followed by the valid nearby
    tickets, and prints the product of the own ticket's departure values
    if the resolver returns. *)
Theorem main_on_written_input (fuel : nat) (cfgs : list Configuration)
    (own : Ticket) (nearby : list Ticket) :
  Forall wellFormedConfig cfgs →
  wellFormedTicket own →
  Forall wellFormedTicket nearby →
  Main.main fuel (inputText cfgs own nearby) =
  let sum :=
    Main.sumValues (flat_map (fun t => uncovered cfgs (Values t)) nearby) in
  let tickets :=
    own :: filter (fun t => Forall (covered cfgs) (Values t)) nearby in
  match bind (getOrdering fuel tickets cfgs)
             (fun ordered => Main.departureProduct ordered 0 own 1) with
  | Done mul => ([sum; mul], Done tt)
  | Panic => ([sum], Panic)
  | Timeout => ([sum], Timeout)
  end.
Proof.
  intros Hcfgs [Hown Hownr] Hnear.
  assert (sectionLines Constraints (inputText cfgs own nearby) =
          (pair Constraints <$> (configText <$> cfgs))
          ++ (OwnTicket, ticketText own)
          :: (pair Nearby <$> (ticketText <$> nearby))) as Hsec.
  { unfold inputText. rewrite sectionLines_data.
    2: { apply Forall_fmap. eapply Forall_impl; [exact Hcfgs|].
         intros c Hc. by apply configText_data. }
    f_equal.
    change (sectionLines Constraints
              (["your ticket:"%string; ticketText own; "nearby tickets:"%string]
               ++ (ticketText <$> nearby)))
      with (sectionLines OwnTicket
              ([ticketText own]
               ++ "nearby tickets:"%string :: (ticketText <$> nearby))).
    rewrite (sectionLines_data OwnTicket [ticketText own]).
    2: { constructor; [by apply ticketText_data|constructor]. }
    change (sectionLines OwnTicket
              ("nearby tickets:"%string :: (ticketText <$> nearby)))
      with (sectionLines Nearby (ticketText <$> nearby)).
    rewrite sectionLines_data_all; [done|].
    apply Forall_fmap. eapply Forall_impl; [exact Hnear|].
    intros t [Ht _]. by apply ticketText_data. }
  assert (parseConfigurations (sectionOf Constraints (inputText cfgs own nearby))
          = Done cfgs) as Hparse.
  { unfold sectionOf. rewrite Hsec, only_app, only_cons, !only_pair. simpl.
    rewrite app_nil_r. by apply parseConfigurations_text. }
  destruct (readLines_spec _ Constraints Main.state_init cfgs eq_refl Hparse)
    as (st & Hrun & Hc & _ & Hv & Hi & Hm).
  simpl in Hc, Hv, Hi, Hm. rewrite Hc, Hsec in Hv, Hi. rewrite Hsec in Hm.
  destruct (recordsOf_constraints cfgs (configText <$> cfgs)) as [Hc1 Hc2].
  destruct (recordsOf_nearby cfgs nearby Hnear) as [Hn1 Hn2].
  destruct (parseTicket_text own Hown) as [_ Hback]. specialize (Hback Hownr).
  rewrite flat_map_app in Hv, Hi. cbn [flat_map] in Hv, Hi.
  rewrite Hc1, Hn1 in Hv. rewrite Hc2, Hn2 in Hi.
  unfold recordsOf in Hv. unfold rejectsOf in Hi. simpl in Hv, Hi.
  rewrite Hback in Hv.
  assert (Main.myTicket st = own) as Hmine.
  { rewrite Hm. unfold ownTicket.
    rewrite only_app, only_cons, !only_pair. simpl. by rewrite Hback. }
  unfold Main.main, Main.part2. rewrite Hrun, Hv, Hi, Hc, Hmine. simpl.
  by destruct (getOrdering fuel _ cfgs) as [ordered| |]; simpl;
    [destruct (Main.departureProduct ordered 0 own 1)|..].
Qed.

(** ** The further properties at concrete inputs *)

Lemma isValidTicket_permutation_witness :
  configs_sample1 ≡ₚ reverse configs_sample1
  ∧ isValidTicket ticket_7_3_47 configs_sample1
    = isValidTicket ticket_7_3_47 (reverse configs_sample1).
Proof.
  split; [symmetry; apply reverse_Permutation|].
  apply isValidTicket_permutation. symmetry. apply reverse_Permutation.
Defined.

Lemma isValidTicket_more_configs_witness :
  fst (isValidTicket ticket_7_3_47 configs_sample1) = true
  ∧ fst (isValidTicket ticket_7_3_47 (configs_sample1 ++ configs_sample2)) = true.
Proof.
  split; [reflexivity|].
  apply (proj1 (isValidTicket_more_configs ticket_7_3_47 configs_sample1
                  configs_sample2)).
  reflexivity.
Defined.

Lemma getOrdering_result_shape_witness :
  getOrdering 3 tickets_abc configs_abc = Done ["c"; "b"; "a"]%string
  ∧ ∃ ticket0, tickets_abc !! 0%nat = Some ticket0
               ∧ length ["c"; "b"; "a"]%string = length (Values ticket0).
Proof.
  split; [reflexivity|].
  destruct (getOrdering_result_shape 3 tickets_abc configs_abc
              ["c"; "b"; "a"]%string eq_refl) as (ticket0 & H0 & Hlen & _).
  exists ticket0. split; assumption.
Defined.

Lemma getOrdering_sound_witness :
  getOrdering 3 tickets_abc configs_abc = Done ["c"; "b"; "a"]%string
  ∧ ("c"%string = EmptyString
     ∨ ∃ c, c ∈ configs_abc ∧ "c"%string = Field c ∧
            ∀ t, t ∈ tickets_abc →
                 ∃ v, Values t !! 0%nat = Some v ∧
                      Exists (fun r => Min r ≤ v ≤ Max r) (Ranges c)).
Proof.
  split; [reflexivity|].
  exact (getOrdering_sound 3 tickets_abc configs_abc ["c"; "b"; "a"]%string
           eq_refl 0%nat "c"%string eq_refl).
Defined.

Lemma getOrdering_no_panic_witness :
  tickets_abc !! 0%nat = Some (mkTicket [1; 2; 3])
  ∧ getOrdering 4 tickets_abc configs_twins ≠ Panic.
Proof.
  split; [reflexivity|].
  apply (getOrdering_no_panic tickets_abc (mkTicket [1; 2; 3]) eq_refl).
  repeat constructor.
Defined.

Lemma getOrdering_short_ticket_panics_witness :
  tickets_ragged !! 0%nat = Some (mkTicket [1; 2])
  ∧ (length (Values (mkTicket [1%Z])) < length (Values (mkTicket [1%Z; 2%Z])))%nat
  ∧ getOrdering 1 tickets_ragged configs_abc = Panic.
Proof.
  split; [reflexivity|]. split; [simpl; lia|].
  apply (getOrdering_short_ticket_panics tickets_ragged (mkTicket [1; 2])
           (mkTicket [1]) configs_abc eq_refl).
  - right. left.
  - simpl. lia.
  - discriminate.
Defined.

Lemma getOrdering_twins_never_return_witness :
  Ranges (mkConfiguration "x" [mkValidRange 1 1])
    = Ranges (mkConfiguration "y" [mkValidRange 1 1])
  ∧ getOrdering 7 tickets_one configs_twins ≠ Done [""%string].
Proof.
  split; [reflexivity|].
  apply (getOrdering_twins_never_return tickets_one configs_twins
           (mkConfiguration "x" [mkValidRange 1 1])
           (mkConfiguration "y" [mkValidRange 1 1])).
  - reflexivity.
  - reflexivity.
Defined.

Lemma getOrdering_unique_assignment_witness :
  getOrdering 3 tickets_abc configs_abc = Done ["c"; "b"; "a"]%string
  ∧ reverse configs_abc ≡ₚ configs_abc
  ∧ ["c"; "b"; "a"]%string = Field <$> reverse configs_abc.
Proof.
  split; [reflexivity|]. split; [apply reverse_Permutation|].
  apply (getOrdering_unique_assignment 3 tickets_abc configs_abc).
  - reflexivity.
  - apply reverse_Permutation.
  - reflexivity.
  - intros [|[|[|p]]] c Hc; try discriminate Hc;
      injection Hc as <-; reflexivity.
Defined.

Lemma getOrdering_ticket_order_witness :
  [mkTicket [3; 9; 18]; mkTicket [15; 1; 5]]
    ≡ₚ [mkTicket [15; 1; 5]; mkTicket [3; 9; 18]]
  ∧ getOrdering 3 [mkTicket [3; 9; 18]; mkTicket [15; 1; 5]] configs_sample2
    = getOrdering 3 [mkTicket [15; 1; 5]; mkTicket [3; 9; 18]] configs_sample2.
Proof.
  split; [apply perm_swap|].
  apply getOrdering_ticket_order; [apply perm_swap|reflexivity].
Defined.

Lemma readLines_flags_witness :
  ∃ st, Main.readLines sample1 Main.state_init = Done st
        ∧ ∃ m, flags st = sectionFlags m.
Proof.
  destruct (Main.readLines sample1 Main.state_init) as [st| |] eqn:E;
    [|vm_compute in E; discriminate E..].
  exists st. split; [reflexivity|].
  exact (proj1 (readLines_flags sample1 st E)).
Defined.

Lemma main_without_tickets_panics_witness :
  parseConfigurations (sectionOf Constraints lines_constraints_only)
    = Done [mkConfiguration "class" [mkValidRange 1 3; mkValidRange 5 7]]
  ∧ sectionOf OwnTicket lines_constraints_only = []
  ∧ ∃ sum, Main.main 3 lines_constraints_only = ([sum], Panic).
Proof.
  split; [reflexivity|]. split; [reflexivity|].
  apply (main_without_tickets_panics 3 lines_constraints_only
           [mkConfiguration "class" [mkValidRange 1 3; mkValidRange 5 7]]).
  - reflexivity.
  - reflexivity.
  - intros line Hin. vm_compute in Hin. inversion Hin.
Defined.

Lemma main_exits_normally_witness :
  parseConfigurations (sectionOf Constraints sample2) = Done configs_sample2
  ∧ sectionOf OwnTicket sample2 ≠ []
  ∧ ∃ sum mul, Main.main 5 sample2 = ([sum; mul], Done tt).
Proof.
  split; [reflexivity|]. split; [discriminate|].
  apply (main_exits_normally 5 sample2 configs_sample2
           ["row"; "departure class"; "departure seat"]%string).
  - reflexivity.
  - discriminate.
  - reflexivity.
Defined.

Lemma parseTicket_ticketText_witness :
  Values ticket_7_3_47 ≠ []
  ∧ parseTicket (ticketText ticket_7_3_47) = ticket_7_3_47.
Proof.
  split; [discriminate|].
  apply (parseTicket_ticketText ticket_7_3_47); [discriminate|].
  repeat constructor; unfold GoInt.min_int, GoInt.max_int; lia.
Defined.

Lemma parseConfiguration_configText_witness :
  Ranges (mkConfiguration "class" [mkValidRange 1 3; mkValidRange 5 7]) ≠ []
  ∧ parseConfiguration
      (configText (mkConfiguration "class" [mkValidRange 1 3; mkValidRange 5 7]))
    = Done (mkConfiguration "class" [mkValidRange 1 3; mkValidRange 5 7]).
Proof.
  split; [discriminate|].
  apply parseConfiguration_configText.
  - apply (bool_decide_unpack _). vm_compute. exact I.
  - discriminate.
  - repeat constructor; simpl; unfold GoInt.max_int; lia.
Defined.

Lemma parseConfiguration_shape_witness :
  parseConfiguration "class 1-3" = Panic.
Proof.
  apply (proj1 (parseConfiguration_shape "class 1-3")).
  apply (bool_decide_unpack _). vm_compute. exact I.
Defined.

Lemma parseRanges_extra_dash_witness :
  parseRanges ["-5-10"%string] = Done [mkValidRange 0 5].
Proof.
  apply (proj2 (parseRanges_extra_dash EmptyString "5" "10"
                  ltac:(apply not_elem_of_nil)
                  ltac:(apply (bool_decide_unpack _); vm_compute; exact I))).
Defined.

Lemma main_on_written_input_witness :
  Forall wellFormedConfig configs_sample2
  ∧ Main.main 5 (inputText configs_sample2 ticket_own2 tickets_nearby2)
    = ([0; 156], Done tt).
Proof.
  assert (Forall wellFormedConfig configs_sample2) as Hcfgs.
  { repeat constructor; try discriminate;
      try (apply (bool_decide_unpack _); vm_compute; exact I);
      simpl; unfold GoInt.max_int; lia. }
  split; [exact Hcfgs|].
  rewrite (main_on_written_input 5 configs_sample2 ticket_own2 tickets_nearby2).
  - vm_compute. reflexivity.
  - exact Hcfgs.
  - split; [discriminate|].
    repeat constructor; unfold GoInt.min_int, GoInt.max_int; lia.
  - repeat constructor; try discriminate;
      unfold GoInt.min_int, GoInt.max_int; lia.
Defined.

Lemma getOrdering_passes_bound_witness :
  getOrdering 9 tickets_abc configs_abc = Done ["c"; "b"; "a"]%string
  ∧ getOrdering (length configs_abc) tickets_abc configs_abc
    = Done ["c"; "b"; "a"]%string.
Proof.
  split; [reflexivity|].
  apply (getOrdering_passes_bound 9). reflexivity.
Defined.
